(** * IntelliGallery: the search-and-match engine of [app.py]

    A shallow embedding of the query parser, the fuzzy matcher
    [is_fuzzy_match] and the per-image scan of [search_images], with the
    properties of the specification stated over them.

    Strings.  A Python [str] is modelled by [string], a sequence of 8-bit
    characters.  The case mappings [lower] and [upper] and the white space
    test [isspace] are those of Python on the ASCII range (code points below
    128); the characters from 128 on are kept as they are by both case
    mappings and are not white space.  Every statement below is therefore a
    statement about ASCII text. *)

From Stdlib Require Import Ascii String ZArith Lia.
From Stdlib Require Import DecimalString DecimalPos DecimalZ Sorted.
From stdpp Require Import base decidable option list gmap strings.

Open Scope string_scope.
Open Scope nat_scope.

(** ** Python string primitives *)

Module Py.

Definition is_ascii_upper (c : ascii) : bool :=
  let n := nat_of_ascii c in (65 <=? n)%nat && (n <=? 90)%nat.

Definition is_ascii_lower (c : ascii) : bool :=
  let n := nat_of_ascii c in (97 <=? n)%nat && (n <=? 122)%nat.

Definition char_lower (c : ascii) : ascii :=
  if is_ascii_upper c then ascii_of_nat (nat_of_ascii c + 32) else c.

Definition char_upper (c : ascii) : ascii :=
  if is_ascii_lower c then ascii_of_nat (nat_of_ascii c - 32) else c.

(** [str.isspace] on one ASCII character: TAB, LF, VT, FF, CR, the four
    separators FS, GS, RS, US, and the space. *)
Definition isspace (c : ascii) : bool :=
  let n := nat_of_ascii c in
  ((9 <=? n)%nat && (n <=? 13)%nat) || ((28 <=? n)%nat && (n <=? 32)%nat).

(** The same change applied to every character. *)
Fixpoint map_chars (f : ascii → ascii) (s : string) : string :=
  match s with
  | EmptyString => EmptyString
  | String c s' => String (f c) (map_chars f s')
  end.

(** [s.lower()] on a string of ASCII characters. *)
Definition lower : string → string := map_chars char_lower.

(** [s.upper()] on a string of ASCII characters.  Outside ASCII the case
    mappings of Python can change the length of a string and are not
    inverse to each other; no statement below is meant for such strings. *)
Definition upper : string → string := map_chars char_upper.

(** [len(s)] *)
Definition len (s : string) : nat := String.length s.

(** [s.startswith(p)] *)
Fixpoint startswith (p s : string) : bool :=
  match p with
  | EmptyString => true
  | String a p' =>
      match s with
      | EmptyString => false
      | String b s' => if Ascii.eqb a b then startswith p' s' else false
      end
  end.

(** [t in s]: [t] occurs in [s] as a contiguous block. *)
Fixpoint contains (t s : string) : bool :=
  startswith t s ||
  match s with
  | EmptyString => false
  | String _ s' => contains t s'
  end.

(** [s.lstrip()] *)
Fixpoint lstrip (s : string) : string :=
  match s with
  | EmptyString => EmptyString
  | String c s' => if isspace c then lstrip s' else s
  end.

(** [s.rstrip()] *)
Fixpoint rstrip (s : string) : string :=
  match s with
  | EmptyString => EmptyString
  | String c s' =>
      match rstrip s' with
      | EmptyString => if isspace c then EmptyString else String c EmptyString
      | r => String c r
      end
  end.

(** [s.strip()] *)
Definition strip (s : string) : string := rstrip (lstrip s).

(** [s.split(sep)] for a non-empty [sep]: the pieces between the
    occurrences of [sep], found from the left and not overlapping.
    [skip] counts the characters of a delimiter that has just been
    recognised and that are still to be passed over. *)
Fixpoint split_from (sep s : string) (skip : nat) : list string :=
  match s with
  | EmptyString => [EmptyString]
  | String c s' =>
      match skip with
      | S k => split_from sep s' k
      | O =>
          if startswith sep s
          then EmptyString :: split_from sep s' (String.length sep - 1)
          else match split_from sep s' 0 with
               | piece :: rest => String c piece :: rest
               | [] => [String c EmptyString]
               end
      end
  end.

Definition split (s sep : string) : list string := split_from sep s 0.

(** The truth value of a string: [if s] holds for the non-empty ones. *)
Definition truthy (s : string) : bool :=
  match s with EmptyString => false | String _ _ => true end.

(** [s.rsplit(c, 1)] for a delimiter of one character: the string cut at
    the last [c], or the string alone when [c] does not occur. *)
Fixpoint rsplit1 (c : ascii) (s : string) : list string :=
  match s with
  | EmptyString => [EmptyString]
  | String a s' =>
      match rsplit1 c s' with
      | [head; tail] => [String a head; tail]
      | _ => if Ascii.eqb a c then [EmptyString; s'] else [s]
      end
  end.

(** [sep.join(l)] *)
Definition join (sep : string) (l : list string) : string :=
  String.concat sep l.

(** [s.endswith(c)] for one character. *)
Fixpoint endswith_char (c : ascii) (s : string) : bool :=
  match s with
  | EmptyString => false
  | String a EmptyString => Ascii.eqb a c
  | String _ s' => endswith_char c s'
  end.

(** [os.path.join(a, b)] of [posixpath]. *)
Definition os_path_join (a b : string) : string :=
  if startswith "/" b then b
  else if negb (truthy a) || endswith_char "/" a then a +:+ b
  else a +:+ "/" +:+ b.

(** [str(n)] for an integer: its decimal writing. *)
Definition str_int (n : Z) : string := NilZero.string_of_int (Z.to_int n).

End Py.

(** ** The [Levenshtein] package

    [Levenshtein.distance] is the edit distance with unit costs for an
    insertion, a deletion and a substitution, given here by its recurrence
    over the two strings. *)

Module Levenshtein.

Fixpoint distance (a b : string) : nat :=
  match a with
  | EmptyString => String.length b
  | String x a' =>
      (fix distance_a (b : string) : nat :=
         match b with
         | EmptyString => String.length a
         | String y b' =>
             Nat.min (Nat.min (S (distance a' b)) (S (distance_a b')))
                     ((if Ascii.eqb x y then 0 else 1) + distance a' b')
         end) b
  end.

(** Edit scripts that rewrite [a] into [b] from left to right, with the
    number of insertions, deletions and substitutions they use. *)
Inductive script : string -> string -> nat -> Prop :=
| script_done : script EmptyString EmptyString 0
| script_keep c a b n :
    script a b n -> script (String c a) (String c b) n
| script_subst x y a b n :
    script a b n -> script (String x a) (String y b) (S n)
| script_delete x a b n :
    script a b n -> script (String x a) b (S n)
| script_insert y a b n :
    script a b n -> script a (String y b) (S n).

End Levenshtein.

(** ** [is_fuzzy_match] (app.py, lines 65-85) *)

Definition is_fuzzy_match (word term : string) : bool :=
  let word_lower := Py.lower word in
  let term_lower := Py.lower term in
  if Py.contains term_lower word_lower then true
  else
    let distance := Levenshtein.distance word_lower term_lower in
    if (Py.len term_lower <=? 5)%nat && (distance <=? 1)%nat then true
    else if (5 <? Py.len term_lower)%nat && (Py.len term_lower <? 10)%nat
            && (distance <=? 2)%nat then true
    else if (10 <=? Py.len term_lower)%nat && (distance <=? 3)%nat then true
    else false.

(** ** Stored data

    One recognised word as [process_and_save_image] writes it: the
    lowercased text and the box [[x, y, w, h]]. *)

Record WordData := { text : string; bbox : list Z }.

(** The column [ocr_data_json] of a row, by what [json.loads] does on it:
    SQL NULL (a [TypeError]), a text that is not JSON, such as the
    placeholder written when a copy reserves its id (a
    [JSONDecodeError]), or the [json.dumps] of a word list. *)
Inductive OcrJson :=
| Null
| Undecodable (raw : string)
| Dumped (words_data : list WordData).

Record Row := {
  id : Z;
  display_name : string;
  internal_filename : string;
  full_text : string;
  ocr_data_json : OcrJson
}.

Inductive JsonError := TypeError | JSONDecodeError.

Definition json_loads (col : OcrJson) : JsonError + list WordData :=
  match col with
  | Null => inl TypeError
  | Undecodable _ => inl JSONDecodeError
  | Dumped words_data => inr words_data
  end.

(** One entry of the response of [/search]. *)
Record Match := {
  m_id : Z;
  m_display_name : string;
  m_internal_filename : string;
  matched_words : list WordData
}.

Inductive SearchType := AND | OR.

Definition is_AND (t : SearchType) : bool :=
  match t with AND => true | OR => false end.

Definition is_OR (t : SearchType) : bool :=
  match t with AND => false | OR => true end.

(** ** [search_images] (app.py, lines 221-300) *)

(** Lines 232-244: the mode and the terms of a trimmed, lowercased query. *)
Definition parse_terms (query : string) : SearchType * list string :=
  let '(search_type, search_terms) :=
    if Py.contains " AND " (Py.upper query) then
      (AND, map Py.strip (Py.split (Py.upper query) " AND "))
    else if Py.contains " OR " (Py.upper query) then
      (OR, map Py.strip (Py.split (Py.upper query) " OR "))
    else
      (OR, map Py.strip (Py.split query " ")) in
  (search_type, map Py.lower (List.filter Py.truthy search_terms)).

(** Lines 262-265: the [try]/[except] around [json.loads]. *)
Definition words_in_image (image : Row) : list WordData :=
  match json_loads (ocr_data_json image) with
  | inr words => words
  | inl _ => []
  end.

(** The state of the scan of one image: [matched_words_data] and the set
    [matched_word_bboxes]. *)
Definition Highlights : Type := list WordData * gset (list Z).

(** Lines 271-277: the body of the loop over the words, for one term. *)
Definition scan_word (term : string) (acc : bool * Highlights)
    (word_data : WordData) : bool * Highlights :=
  let '(term_found_in_this_image, (data, bboxes)) := acc in
  if is_fuzzy_match (text word_data) term then
    let bbox_tuple := bbox word_data in
    if decide (bbox_tuple ∈ bboxes)
    then (true, (data, bboxes))
    else (true, ((data ++ [word_data])%list, bboxes ∪ {[ bbox_tuple ]}))
  else acc.

(** Lines 268-280: the body of the loop over the terms. *)
Definition scan_term (words : list WordData) (acc : nat * Highlights)
    (term : string) : nat * Highlights :=
  let '(terms_found_count, hl) := acc in
  let '(term_found_in_this_image, hl') :=
    fold_left (scan_word term) words (false, hl) in
  (if term_found_in_this_image then S terms_found_count
   else terms_found_count, hl').

(** Lines 257-280: [terms_found_count] and the highlights of one image. *)
Definition scan_image (search_terms : list string) (words : list WordData)
  : nat * Highlights :=
  fold_left (scan_term words) search_terms (0, ([], ∅)).

Definition make_match (image : Row) (data : list WordData) : Match :=
  {| m_id := id image;
     m_display_name := display_name image;
     m_internal_filename := internal_filename image;
     matched_words := data |}.

(** Lines 255-298: the body of the loop over the rows. *)
Definition visit_image (search_type : SearchType) (search_terms : list string)
    (matches : list Match) (image : Row) : list Match :=
  let '(terms_found_count, (matched_words_data, _)) :=
    scan_image search_terms (words_in_image image) in
  if is_AND search_type && (terms_found_count =? length search_terms)%nat
  then (matches ++ [make_match image matched_words_data])%list
  else if is_OR search_type && (0 <? terms_found_count)%nat
  then (matches ++ [make_match image matched_words_data])%list
  else matches.

(** Lines 245-300: the search proper, on parsed terms and the rows read
    from the table. *)
Definition search (search_type : SearchType) (search_terms : list string)
    (all_images : list Row) : list Match :=
  match search_terms with
  | [] => []
  | _ => fold_left (visit_image search_type search_terms) all_images []
  end.

(** What the endpoint answers: [jsonify(...)] with its status. *)
Inductive Response :=
| BadRequest (error : string)
| Found (matches : list Match).

(** The endpoint: [q] is the request argument, [None] when it is not given
    ([request.args.get('q', '')]). *)
Definition search_images (q : option string) (all_images : list Row)
  : Response :=
  let query := Py.strip (Py.lower (default "" q)) in
  if negb (Py.truthy query) then BadRequest "No query provided"
  else
    let '(search_type, search_terms) := parse_terms query in
    Found (search search_type search_terms all_images).

(** ** [allowed_file] (app.py, lines 15 and 59-62) *)

Definition ALLOWED_EXTENSIONS : gset string :=
  {[ "png"; "jpg"; "jpeg"; "webp" ]}.

(** [None] stands for the [IndexError] of the subscript [[1]]. *)
Definition allowed_file (filename : string) : option bool :=
  if Py.contains "." filename then
    match Py.rsplit1 "." filename !! 1 with
    | Some extension =>
        Some (bool_decide (Py.lower extension ∈ ALLOWED_EXTENSIONS))
    | None => None
    end
  else Some false.

(** ** The name of a copy (app.py, lines 167-168)

    [name_parts = display_name.rsplit('.', 1)] and the f-string built from
    it and the new id; [None] stands for the [IndexError] of
    [name_parts[1]]. *)
Definition copy_filename (display_name : string) (new_id : Z) : option string :=
  let name_parts := Py.rsplit1 "." display_name in
  match name_parts !! 0, name_parts !! 1 with
  | Some stem, Some extension =>
      Some (stem +:+ "_" +:+ Py.str_int new_id +:+ "." +:+ extension)
  | _, _ => None
  end.

(** ** The recognised words (app.py, lines 112-130)

    What [reader.readtext(img, detail=1)] gives for one region: the four
    corners of the box, clockwise from the top left one, and the text (the
    confidence, which the code does not use, is left out).  The coordinates
    are numbers of the engine, of a type [N] that is left open. *)
Record Quad (N : Type) := {
  top_left : N * N;
  top_right : N * N;
  bottom_right : N * N;
  bottom_left : N * N
}.

Arguments top_left {N}.
Arguments top_right {N}.
Arguments bottom_right {N}.
Arguments bottom_left {N}.

Record OcrResult (N : Type) := { region : Quad N; recognised : string }.

Arguments region {N}.
Arguments recognised {N}.

(** Lines 112 and 128: the stored [full_text]. *)
Definition full_text_of {N} (ocr_results : list (OcrResult N)) : string :=
  Py.lower (Py.join " " (map recognised ocr_results)).

(** ** The table [images] (app.py, lines 47-55)

    The rows in the order of their ids, which is the order in which a
    [SELECT] without [ORDER BY] reads them, and the largest id given so far,
    which [AUTOINCREMENT] keeps in [sqlite_sequence]. *)
Record Db := { images : list Row; sequence : Z }.

Inductive Exception :=
| IntegrityError (message : string)
| OperationalError (message : string)
| OverflowError (message : string)
| IndexError (message : string)
| KeyError (message : string)
| OSError (message : string).

(** [str(e)] *)
Definition str_exception (e : Exception) : string :=
  match e with
  | IntegrityError message | OperationalError message
  | OverflowError message | IndexError message
  | KeyError message | OSError message => message
  end.

(** The largest id of a row of SQLite, and the integers that it stores. *)
Definition max_rowid : Z := 9223372036854775807.

Definition is_sqlite_integer (n : Z) : bool :=
  ((- max_rowid - 1 <=? n) && (n <=? max_rowid))%Z.

(** What a request meets outside the program: the numbers in which the OCR
    engine gives its coordinates (integers or floating point numbers of
    NumPy, as the engine chooses) with their subtraction and their
    conversion by [int], which is taken to succeed, as it does on every
    finite number; the decoding of the image and the OCR engine (an answer,
    or the text of the exception raised); the upload folder (whether a path
    exists, and the text of the exception when writing or removing fails);
    the number of ids SQLite skips for a new row (none as a rule), and the
    texts of its errors. *)
Definition ndarray : Type := list (list (list Z)).

Record World := {
  number : Type;
  number_sub : number → number → number;
  number_int : number → Z;
  image_open : string → string + ndarray;
  readtext : ndarray → string + list (OcrResult number);
  path_exists : string → bool;
  open_write : string → option string;
  os_remove : string → option string;
  rowid_gap : nat;
  unique_failed : string;
  database_full : string
}.

(** Lines 114-125: one entry of [words_data].  The width and the height
    are the differences of the corners, converted after the subtraction. *)
Definition word_of_result (w : World) (result : OcrResult (number w))
  : WordData :=
  let tl := top_left (region result) in
  let br := bottom_right (region result) in
  let x := number_int w tl.1 in
  let y := number_int w tl.2 in
  let width := number_int w (number_sub w br.1 tl.1) in
  let height := number_int w (number_sub w br.2 tl.2) in
  {| text := Py.lower (recognised result); bbox := [x; y; width; height] |}.

Definition words_data_of (w : World)
    (ocr_results : list (OcrResult (number w))) : list WordData :=
  map (word_of_result w) ocr_results.

(** What a request does to the upload folder. *)
Inductive FsEvent :=
| Written (path : string) (data : string)
| WriteFailed (path : string)
| Removed (path : string)
| RemoveFailed (path : string).

Definition largest_id (rows : list Row) : Z :=
  fold_right Z.max 0%Z (map id rows).

(** [INSERT INTO images (...) VALUES (?, ?, ?, ?)] and [cursor.lastrowid]:
    the new id is larger than every id ever given, and the insertion fails
    when no such id is left; [internal_filename] is [UNIQUE]. *)
Definition sql_insert (w : World) (display internal text : string)
    (ocr : OcrJson) (db : Db) : Exception + (Z * Db) :=
  let new_id :=
    (Z.max (sequence db) (largest_id (images db)) + 1
     + Z.of_nat (rowid_gap w))%Z in
  if (max_rowid <? new_id)%Z
  then inl (OperationalError (database_full w))
  else if bool_decide (internal ∈ map internal_filename (images db))
  then inl (IntegrityError (unique_failed w))
  else
    inr (new_id,
         {| images :=
              (images db ++
               [{| id := new_id; display_name := display;
                   internal_filename := internal; full_text := text;
                   ocr_data_json := ocr |}])%list;
            sequence := new_id |}).

(** [DELETE FROM images WHERE id = ?] *)
Definition sql_delete (image_id : Z) (db : Db) : Db :=
  {| images := List.filter (λ row, negb (id row =? image_id)%Z) (images db);
     sequence := sequence db |}.

(** [UPDATE images SET internal_filename = ?, full_text = ?,
    ocr_data_json = ? WHERE id = ?] *)
Definition sql_update (w : World) (image_id : Z) (internal text : string)
    (ocr : OcrJson) (db : Db) : Exception + Db :=
  if existsb (λ row, (id row =? image_id)%Z) (images db)
     && existsb (λ row, negb (id row =? image_id)%Z
                        && String.eqb (internal_filename row) internal)
                (images db)
  then inl (IntegrityError (unique_failed w))
  else
    inr {| images :=
             map (λ row,
                    if (id row =? image_id)%Z
                    then {| id := id row; display_name := display_name row;
                            internal_filename := internal; full_text := text;
                            ocr_data_json := ocr |}
                    else row)
                 (images db);
           sequence := sequence db |}.

(** [SELECT internal_filename FROM images WHERE id = ?] and [fetchone()] *)
Definition sql_select_filename (image_id : Z) (db : Db) : option string :=
  match List.find (λ row, (id row =? image_id)%Z) (images db) with
  | Some row => Some (internal_filename row)
  | None => None
  end.

(** ** [process_and_save_image] (app.py, lines 87-130) *)

Definition UPLOAD_FOLDER : string := "uploads".

Record FileStorage := { filename : string; stream : string }.

(** The dictionary returned with the status. *)
Inductive ProcessBody :=
| ProcessFailed (error : string)
| Processed (text : string) (ocr : OcrJson).

Definition process_and_save_image (w : World) (file_storage : FileStorage)
    (display : string) (internal : string)
  : (Exception + ProcessBody * nat) * list FsEvent :=
  match image_open w (stream file_storage) with
  | inl e => (inr (ProcessFailed ("Failed to read image file: " +:+ e), 400), [])
  | inr img_np =>
      match readtext w img_np with
      | inl e =>
          (inr (ProcessFailed ("EasyOCR failed to process image: " +:+ e), 500),
           [])
      | inr ocr_results =>
          let filepath := Py.os_path_join UPLOAD_FOLDER internal in
          match open_write w filepath with
          | Some e => (inl (OSError e), [WriteFailed filepath])
          | None =>
              (inr (Processed (full_text_of ocr_results)
                              (Dumped (words_data_of w ocr_results)), 200),
               [Written filepath (stream file_storage)])
          end
      end
  end.

(** ** [upload_image] (app.py, lines 134-218) *)

Record UploadRequest := {
  files_file : option FileStorage;
  args_action : option string
}.

Inductive Body :=
| ErrorJson (error : string)
| ConflictJson (error message : string)
| ResultJson (result : ProcessBody)
| CopyJson (message : string) (new_id : Z)
| CreatedJson (message : string) (new_id : Z) (name : string)
| MessageJson (message : string).

(** An answer with its status, or an exception that no handler catches. *)
Inductive Reply :=
| Json (body : Body) (status : nat)
| Unhandled (e : Exception).

(** Lines 155-185: [action == 'new_copy']. *)
Definition upload_copy (w : World) (file : FileStorage) (db : Db)
  : Reply * Db * list FsEvent :=
  let display := filename file in
  let failed (e : Exception) :=
    Json (ErrorJson ("Database error: " +:+ str_exception e)) 500 in
  match sql_insert w display ("temp_" +:+ display) "" (Undecodable "") db with
  | inl e => (failed e, db, [])
  | inr (new_id, db1) =>
      match copy_filename display new_id with
      | None => (failed (IndexError "list index out of range"), db1, [])
      | Some internal =>
          match process_and_save_image w file display internal with
          | (inl e, events) => (failed e, db1, events)
          | (inr (result, status_code), events) =>
              if negb (status_code =? 200) then
                (Json (ResultJson result) status_code,
                 sql_delete new_id db1, events)
              else
                match result with
                | ProcessFailed _ => (failed (KeyError "'full_text'"), db1, events)
                | Processed text ocr =>
                    match sql_update w new_id internal text ocr db1 with
                    | inl e => (failed e, db1, events)
                    | inr db2 =>
                        (Json (CopyJson "File added as new copy" new_id) 201,
                         db2, events)
                    end
                end
          end
      end
  end.

(** Lines 186-218: the first upload of a name. *)
Definition upload_new (w : World) (file : FileStorage) (db : Db)
  : Reply * Db * list FsEvent :=
  let display := filename file in
  let filepath := Py.os_path_join UPLOAD_FOLDER display in
  if path_exists w filepath then
    (Json (ConflictJson
             "File already exists"
             ("A file named '" +:+ display
              +:+ "' already exists. What would you like to do?")) 409,
     db, [])
  else
    let failed (e : Exception) :=
      Json (ErrorJson ("An error occurred: " +:+ str_exception e)) 500 in
    match process_and_save_image w file display display with
    | (inl e, events) => (failed e, db, events)
    | (inr (result, status_code), events) =>
        if negb (status_code =? 200) then
          (Json (ResultJson result) status_code, db, events)
        else
          match result with
          | ProcessFailed _ => (failed (KeyError "'full_text'"), db, events)
          | Processed text ocr =>
              match sql_insert w display display text ocr db with
              | inl (IntegrityError _) =>
                  (Json (ErrorJson ("File '" +:+ display
                                    +:+ "' already exists in the database."))
                        400,
                   db, events)
              | inl e => (failed e, db, events)
              | inr (new_id, db') =>
                  (Json (CreatedJson "File processed successfully"
                                     new_id display) 201,
                   db', events)
              end
          end
    end.

Definition upload_image (w : World) (request : UploadRequest) (db : Db)
  : Reply * Db * list FsEvent :=
  match files_file request with
  | None => (Json (ErrorJson "No file part") 400, db, [])
  | Some file =>
      if negb (Py.truthy (filename file)) then
        (Json (ErrorJson "No selected file") 400, db, [])
      else
        match allowed_file (filename file) with
        | None => (Unhandled (IndexError "list index out of range"), db, [])
        | Some false => (Json (ErrorJson "File type not allowed") 400, db, [])
        | Some true =>
            match args_action request with
            | Some "new_copy" => upload_copy w file db
            | _ => upload_new w file db
            end
        end
  end.

(** ** [delete_image] (app.py, lines 318-348) *)

Definition delete_image (w : World) (image_id : Z) (db : Db)
  : Reply * Db * list FsEvent :=
  if negb (is_sqlite_integer image_id) then
    (Unhandled
       (OverflowError "Python int too large to convert to SQLite INTEGER"),
     db, [])
  else
  match sql_select_filename image_id db with
  | None => (Json (ErrorJson "Image not found in database") 404, db, [])
  | Some internal =>
      let db' := sql_delete image_id db in
      let filepath := Py.os_path_join UPLOAD_FOLDER internal in
      let deleted :=
        Json (MessageJson ("Image " +:+ Py.str_int image_id
                           +:+ " deleted successfully.")) 200 in
      if path_exists w filepath then
        match os_remove w filepath with
        | Some e =>
            (Json (ErrorJson ("An error occurred during deletion: " +:+ e)) 500,
             db', [RemoveFailed filepath])
        | None => (deleted, db', [Removed filepath])
        end
      else (deleted, db', [])
  end.

(** ** [get_all_images] (app.py, lines 302-316) *)

Record ImageEntry := {
  e_id : Z;
  e_display_name : string;
  e_internal_filename : string
}.

(** [ORDER BY id DESC] *)
Fixpoint insert_by_id_desc (row : Row) (rows : list Row) : list Row :=
  match rows with
  | [] => [row]
  | r :: rows' =>
      if (id r <=? id row)%Z then row :: rows
      else r :: insert_by_id_desc row rows'
  end.

Definition order_by_id_desc (rows : list Row) : list Row :=
  fold_right insert_by_id_desc [] rows.

Definition get_all_images (db : Db) : list ImageEntry :=
  map (λ img, {| e_id := id img;
                 e_display_name := display_name img;
                 e_internal_filename := internal_filename img |})
      (order_by_id_desc (images db)).

(** * Auxiliary definitions *)

(** The threshold on the distance that goes with a term of length [n]. *)
Definition within_threshold (n d : nat) : Prop :=
  (n ≤ 5 ∧ d ≤ 1) ∨ (5 < n < 10 ∧ d ≤ 2) ∨ (10 ≤ n ∧ d ≤ 3).

(** The terms as the specification words them: each piece trimmed and
    lowercased, the empty ones discarded. *)
Definition spec_terms (pieces : list string) : list string :=
  List.filter (λ t, negb (String.eqb t ""))
              (map (λ piece, Py.lower (Py.strip piece)) pieces).

(** [word_data] matches [term]. *)
Definition matches_term (term : string) (word_data : WordData) : bool :=
  is_fuzzy_match (text word_data) term.

(** In the words of the specification: a term is found in an image when it
    matches at least one of its words. *)
Definition spec_term_found (words : list WordData) (term : string) : bool :=
  existsb (matches_term term) words.

(** The matching words in the order in which the two loops meet them. *)
Definition hits (search_terms : list string) (words : list WordData)
  : list WordData :=
  flat_map (λ term, List.filter (matches_term term) words) search_terms.

(** Lines 274-277 on their own: record a matching word unless its box is
    already in the set. *)
Definition push (hl : Highlights) (word_data : WordData) : Highlights :=
  if decide (bbox word_data ∈ hl.2) then hl
  else ((hl.1 ++ [word_data])%list, hl.2 ∪ {[ bbox word_data ]}).

(** The list and the set agree, and no box is listed twice. *)
Definition consistent (hl : Highlights) : Prop :=
  NoDup (map bbox hl.1) ∧ ∀ b, b ∈ hl.2 ↔ b ∈ map bbox hl.1.

(** The highlights emitted for an image: its [matched_words_data] when the
    terms have been scanned. *)
Definition highlights (search_terms : list string) (image : Row)
  : list WordData :=
  (scan_image search_terms (words_in_image image)).2.1.

(** In the words of the specification: with AND every term is found in the
    image, with OR at least one is. *)
Definition spec_included (search_type : SearchType)
    (search_terms : list string) (image : Row) : bool :=
  match search_type with
  | AND => forallb (spec_term_found (words_in_image image)) search_terms
  | OR => existsb (spec_term_found (words_in_image image)) search_terms
  end.

(** The id that an answer of [upload_image] announces with status 201. *)
Definition created_id (reply : Reply) : option Z :=
  match reply with
  | Json (CopyJson _ new_id) 201 => Some new_id
  | Json (CreatedJson _ new_id _) 201 => Some new_id
  | _ => None
  end.

Definition status_of (reply : Reply) : option nat :=
  match reply with
  | Json _ status => Some status
  | Unhandled _ => None
  end.

(** A table as SQLite keeps it: ids increasing along the rows and not above
    the largest id given so far, internal names pairwise distinct. *)
Definition well_formed (db : Db) : Prop :=
  StronglySorted Z.lt (map id (images db))
  ∧ (∀ row, row ∈ images db → (id row ≤ sequence db)%Z)
  ∧ NoDup (map internal_filename (images db)).

(** A succession of requests that change the table, each with what it
    meets outside the program. *)
Inductive Call :=
| CallUpload (w : World) (request : UploadRequest)
| CallDelete (w : World) (image_id : Z).

Definition run_call (call : Call) (db : Db) : Reply * Db :=
  match call with
  | CallUpload w request => (upload_image w request db).1
  | CallDelete w image_id => (delete_image w image_id db).1
  end.

Fixpoint run_calls (calls : list Call) (db : Db) : list Reply * Db :=
  match calls with
  | [] => ([], db)
  | call :: calls' =>
      let '(reply, db1) := run_call call db in
      let '(replies, db2) := run_calls calls' db1 in
      (reply :: replies, db2)
  end.

(** What a request may have done to the upload folder: nothing, or one
    attempt to write the file, made after the image was decoded and read. *)
Definition after_ocr (w : World) (file : FileStorage) (internal : string)
    (events : list FsEvent) : Prop :=
  events = []
  ∨ ∃ img ocr_results,
      image_open w (stream file) = inr img
      ∧ readtext w img = inr ocr_results
      ∧ (events = [Written (Py.os_path_join UPLOAD_FOLDER internal) (stream file)]
         ∨ events = [WriteFailed (Py.os_path_join UPLOAD_FOLDER internal)]).

(** The row stored for an image. *)
Definition stored_row (w : World) (new_id : Z) (display internal : string)
    (ocr_results : list (OcrResult (number w))) : Row :=
  {| id := new_id; display_name := display; internal_filename := internal;
     full_text := full_text_of ocr_results;
     ocr_data_json := Dumped (words_data_of w ocr_results) |}.

(** The words of a list whose box comes for the first time, the boxes of
    [seen] being taken as met already. *)
Fixpoint keep_first (seen : list (list Z)) (words : list WordData)
  : list WordData :=
  match words with
  | [] => []
  | word_data :: words' =>
      if bool_decide (bbox word_data ∈ seen) then keep_first seen words'
      else word_data :: keep_first (bbox word_data :: seen) words'
  end.

Definition first_by_box (words : list WordData) : list WordData :=
  keep_first [] words.

(** A string of ASCII characters only. *)
Fixpoint is_ascii (s : string) : bool :=
  match s with
  | EmptyString => true
  | String c s' => (nat_of_ascii c <? 128) && is_ascii s'
  end.

(** The row that reserves the id of a copy. *)
Definition reserved_row (new_id : Z) (display : string) : Row :=
  {| id := new_id; display_name := display;
     internal_filename := "temp_" +:+ display; full_text := "";
     ocr_data_json := Undecodable "" |}.

(** [s[n:]] *)
Fixpoint drop (n : nat) (s : string) : string :=
  match n, s with
  | 0, _ => s
  | S n', String _ s' => drop n' s'
  | S _, EmptyString => EmptyString
  end.

(** ** Sample rows *)

Definition w_cat : WordData := {| text := "cat"; bbox := [10; 20; 30; 12]%Z |}.
Definition w_dog : WordData := {| text := "dog"; bbox := [60; 20; 32; 12]%Z |}.

(** "dog" and "cat" in two boxes. *)
Definition pets : Row :=
  {| id := 1; display_name := "pets.png"; internal_filename := "pets.png";
     full_text := "dog cat"; ocr_data_json := Dumped [w_dog; w_cat] |}.

(** Two readings of one region: the same box with two texts. *)
Definition r_cat : WordData := {| text := "cat"; bbox := [5; 5; 40; 16]%Z |}.
Definition r_dog : WordData := {| text := "dog"; bbox := [5; 5; 40; 16]%Z |}.

Definition stamp : Row :=
  {| id := 2; display_name := "stamp.png"; internal_filename := "stamp.png";
     full_text := "cat dog"; ocr_data_json := Dumped [r_cat; r_dog] |}.

(** A copy whose id is reserved and whose text is still the placeholder. *)
Definition pending : Row :=
  {| id := 3; display_name := "scan.png"; internal_filename := "temp_scan.png";
     full_text := ""; ocr_data_json := Undecodable "" |}.

(** The two regions of [pets] as the engine gives them. *)
Definition dog_region : OcrResult Z :=
  {| region := {| top_left := (60, 20)%Z; top_right := (92, 20)%Z;
                  bottom_right := (92, 32)%Z; bottom_left := (60, 32)%Z |};
     recognised := "Dog" |}.

Definition cat_region : OcrResult Z :=
  {| region := {| top_left := (10, 20)%Z; top_right := (40, 20)%Z;
                  bottom_right := (40, 32)%Z; bottom_left := (10, 32)%Z |};
     recognised := "CAT" |}.

(** A world of integer coordinates in which an image decodes, is read as
    the two words of [pets], and is written without trouble. *)
Definition reads_pets : World :=
  {| number := Z;
     number_sub := Z.sub;
     number_int := λ n, n;
     image_open := λ _, inr [[[255%Z]]];
     readtext := λ _, inr [dog_region; cat_region];
     path_exists := λ _, false;
     open_write := λ _, None;
     os_remove := λ _, None;
     rowid_gap := 0;
     unique_failed := "UNIQUE constraint failed: images.internal_filename";
     database_full := "database or disk is full" |}.

(** A world in which the OCR engine fails. *)
Definition ocr_down : World :=
  {| number := Z;
     number_sub := Z.sub;
     number_int := λ n, n;
     image_open := λ _, inr [[[255%Z]]];
     readtext := λ _, inl "CUDA out of memory";
     path_exists := λ _, false;
     open_write := λ _, None;
     os_remove := λ _, None;
     rowid_gap := 0;
     unique_failed := "UNIQUE constraint failed: images.internal_filename";
     database_full := "database or disk is full" |}.

(** A world in which every file asked for is in the folder. *)
Definition files_there : World :=
  {| number := Z;
     number_sub := Z.sub;
     number_int := λ n, n;
     image_open := λ _, inr [[[255%Z]]];
     readtext := λ _, inr [dog_region; cat_region];
     path_exists := λ _, true;
     open_write := λ _, None;
     os_remove := λ _, None;
     rowid_gap := 0;
     unique_failed := "UNIQUE constraint failed: images.internal_filename";
     database_full := "database or disk is full" |}.

Definition pets_upload : UploadRequest :=
  {| files_file := Some {| filename := "pets.png"; stream := "PNG..." |};
     args_action := None |}.

Definition pets_copy : UploadRequest :=
  {| files_file := Some {| filename := "pets.png"; stream := "PNG..." |};
     args_action := Some "new_copy" |}.

Definition empty_db : Db := {| images := []; sequence := 0 |}.

(** * Properties *)

(** ** Characters and strings *)

Section Strings.

Import Py.

Ltac by_cases_on c := destruct c as [[] [] [] [] [] [] [] []]; reflexivity.

Lemma char_lower_idem c : char_lower (char_lower c) = char_lower c.
Proof. by_cases_on c. Qed.

Lemma isspace_char_lower c : isspace (char_lower c) = isspace c.
Proof. by_cases_on c. Qed.

Lemma isspace_char_upper c : isspace (char_upper c) = isspace c.
Proof. by_cases_on c. Qed.

Lemma char_lower_upper c : char_lower (char_upper c) = char_lower c.
Proof. by_cases_on c. Qed.

Lemma lower_cons c s : lower (String c s) = String (char_lower c) (lower s).
Proof. reflexivity. Qed.

Lemma upper_cons c s : upper (String c s) = String (char_upper c) (upper s).
Proof. reflexivity. Qed.

Lemma map_chars_compose f g h s :
  (∀ c, f (g c) = h c) → map_chars f (map_chars g s) = map_chars h s.
Proof. intros E. induction s as [|c s IH]; simpl; [done|]. by rewrite E, IH. Qed.

Lemma lower_idem s : lower (lower s) = lower s.
Proof. apply map_chars_compose, char_lower_idem. Qed.

Lemma lower_upper s : lower (upper s) = lower s.
Proof. apply map_chars_compose, char_lower_upper. Qed.

Lemma length_map_chars f s : String.length (map_chars f s) = String.length s.
Proof. induction s as [|c s IH]; simpl; [done|]. by rewrite IH. Qed.

Lemma len_lower s : len (lower s) = len s.
Proof. apply length_map_chars. Qed.

Lemma truthy_lower s : truthy (lower s) = truthy s.
Proof. by destruct s. Qed.

(** Trimming commutes with a change of characters that keeps white space. *)
Section Trim.

Variable f : ascii → ascii.
Hypothesis isspace_f : ∀ c, isspace (f c) = isspace c.

Lemma lstrip_map_chars s : lstrip (map_chars f s) = map_chars f (lstrip s).
Proof.
  induction s as [|c s IH]; simpl; [done|].
  rewrite isspace_f. by destruct (isspace c).
Qed.

Lemma rstrip_map_chars s : rstrip (map_chars f s) = map_chars f (rstrip s).
Proof.
  induction s as [|c s IH]; simpl; [done|].
  rewrite IH, isspace_f. by destruct (rstrip s), (isspace c).
Qed.

Lemma strip_map_chars s : strip (map_chars f s) = map_chars f (strip s).
Proof. unfold strip. by rewrite lstrip_map_chars, rstrip_map_chars. Qed.

End Trim.

Lemma strip_lower s : strip (lower s) = lower (strip s).
Proof. apply strip_map_chars, isspace_char_lower. Qed.

Lemma strip_upper s : strip (upper s) = upper (strip s).
Proof. apply strip_map_chars, isspace_char_upper. Qed.

Lemma truthy_true s : truthy s = true ↔ s ≠ "".
Proof. destruct s; simpl; split; (done || congruence). Qed.

Lemma startswith_empty s : startswith "" s = true.
Proof. by destruct s. Qed.

Lemma contains_empty s : contains "" s = true.
Proof. destruct s; reflexivity. Qed.

Lemma startswith_spec p s : startswith p s = true ↔ ∃ post, s = p +:+ post.
Proof.
  revert s. induction p as [|a p IH]; intros s; simpl.
  - split; [eauto|done].
  - destruct s as [|b s]; [split; [done|by intros [? ?]]|].
    destruct (Ascii.eqb_spec a b) as [->|Hne].
    + rewrite IH. split; intros [post E]; exists post; [by rewrite E|].
      by injection E.
    + split; [done|]. intros [post E]. by injection E.
Qed.

(** [contains t s] holds exactly when [t] is a block of [s]. *)
Lemma contains_spec t s :
  contains t s = true ↔ ∃ pre post, s = pre +:+ t +:+ post.
Proof.
  induction s as [|b s IH].
  - change (contains t "") with (startswith t "" || false).
    rewrite orb_false_r, startswith_spec. split.
    + intros [post E]. by exists "", post.
    + intros (pre & post & E). destruct pre; [by exists post|done].
  - change (contains t (String b s))
      with (startswith t (String b s) || contains t s).
    rewrite orb_true_iff, startswith_spec, IH. split.
    + intros [[post E]|(pre & post & E)].
      * by exists "", post.
      * exists (String b pre), post. by rewrite E.
    + intros (pre & post & E). destruct pre as [|c pre].
      * left. by exists post.
      * right. injection E as _ E. by exists pre, post.
Qed.

End Strings.

(** ** The edit distance *)

Section Distance.

Import Levenshtein.

Lemma distance_nil_r a : distance a "" = String.length a.
Proof. by destruct a. Qed.

Lemma distance_cons x a y b :
  distance (String x a) (String y b) =
  Nat.min (Nat.min (S (distance a (String y b))) (S (distance (String x a) b)))
          ((if Ascii.eqb x y then 0 else 1) + distance a b).
Proof. reflexivity. Qed.

Lemma script_all_insert b : script "" b (String.length b).
Proof. induction b; simpl; constructor; done. Qed.

Lemma script_all_delete a : script a "" (String.length a).
Proof. induction a; simpl; constructor; done. Qed.

(** Some script has [distance a b] edits... *)
Lemma distance_script a b : script a b (distance a b).
Proof.
  revert b. induction a as [|x a IHa]; intros b.
  - apply script_all_insert.
  - induction b as [|y b IHb].
    + rewrite distance_nil_r. apply script_all_delete.
    + rewrite distance_cons.
      destruct (Nat.min_spec (S (distance a (String y b)))
                             (S (distance (String x a) b))) as [[_ E1]|[_ E1]];
      destruct (Nat.min_spec
                  (Nat.min (S (distance a (String y b)))
                           (S (distance (String x a) b)))
                  ((if Ascii.eqb x y then 0 else 1) + distance a b))
        as [[_ E2]|[_ E2]]; rewrite E2, ?E1.
      * apply script_delete, IHa.
      * destruct (Ascii.eqb_spec x y) as [->|_]; simpl;
          [apply script_keep | apply script_subst]; apply IHa.
      * apply script_insert, IHb.
      * destruct (Ascii.eqb_spec x y) as [->|_]; simpl;
          [apply script_keep | apply script_subst]; apply IHa.
Qed.

Lemma distance_delete x a b : distance (String x a) b ≤ S (distance a b).
Proof.
  destruct b as [|y b].
  - rewrite !distance_nil_r. simpl. lia.
  - rewrite distance_cons. lia.
Qed.

Lemma distance_insert y a b : distance a (String y b) ≤ S (distance a b).
Proof.
  destruct a as [|x a].
  - simpl. lia.
  - rewrite distance_cons. lia.
Qed.

(** ... and no script has fewer: [distance] is the least number of
    single-character insertions, deletions and substitutions. *)
Lemma distance_least a b n : script a b n → distance a b ≤ n.
Proof.
  induction 1 as [|c a b n _ IH|x y a b n _ IH|x a b n _ IH|y a b n _ IH].
  - simpl. lia.
  - rewrite distance_cons, Ascii.eqb_refl. lia.
  - rewrite distance_cons. destruct (Ascii.eqb x y); lia.
  - pose proof (distance_delete x a b). lia.
  - pose proof (distance_insert y a b). lia.
Qed.

Lemma script_sym a b n : script a b n → script b a n.
Proof. induction 1; by constructor. Qed.

Lemma distance_sym a b : distance a b = distance b a.
Proof.
  apply Nat.le_antisymm; apply distance_least, script_sym, distance_script.
Qed.

Lemma distance_same a : distance a a = 0.
Proof.
  apply Nat.le_antisymm; [|lia]. apply distance_least.
  induction a; by constructor.
Qed.

End Distance.

(** ** The matcher *)

Lemma is_fuzzy_match_substring word term :
  Py.contains (Py.lower term) (Py.lower word) = true →
  is_fuzzy_match word term = true.
Proof. unfold is_fuzzy_match. intros ->. reflexivity. Qed.

Lemma is_fuzzy_match_distance word term :
  Py.contains (Py.lower term) (Py.lower word) = false →
  is_fuzzy_match word term = true ↔
  within_threshold (Py.len term)
                   (Levenshtein.distance (Py.lower word) (Py.lower term)).
Proof.
  unfold is_fuzzy_match, within_threshold. intros ->.
  rewrite len_lower.
  set (n := Py.len term).
  set (d := Levenshtein.distance (Py.lower word) (Py.lower term)).
  destruct (Nat.leb_spec n 5), (Nat.leb_spec d 1), (Nat.ltb_spec 5 n),
    (Nat.ltb_spec n 10), (Nat.leb_spec d 2), (Nat.leb_spec 10 n),
    (Nat.leb_spec d 3); simpl; split; (done || lia).
Qed.

(** C1.  When the lowercased term does not occur in the lowercased word,
    [is_fuzzy_match] holds exactly when the edit distance [d] of the two
    lowercased strings is within the threshold of the term's length:
    [d <= 1] for a length up to 5, [d <= 2] for a length from 6 to 9,
    [d <= 3] from length 10 on.  "invo1ce" matches "invoice" (distance 1,
    length 7) and "xyz" does not match "abc" (distance 3, length 3); in
    neither pair does the term occur in the word.  Lowercasing keeps the
    length, so the length of the term is that of its lowercased form, which
    is the one the code measures. *)
Theorem fuzzy_rule_thresholds :
  (∀ t : string, Py.len (Py.lower t) = Py.len t)
  ∧ (∀ w t : string,
     Py.contains (Py.lower t) (Py.lower w) = false →
     let d := Levenshtein.distance (Py.lower w) (Py.lower t) in
     is_fuzzy_match w t = true ↔
       (Py.len t ≤ 5 ∧ d ≤ 1) ∨ (5 < Py.len t < 10 ∧ d ≤ 2)
       ∨ (10 ≤ Py.len t ∧ d ≤ 3))
  ∧ (Py.contains "invoice" "invo1ce" = false
     ∧ Levenshtein.distance "invo1ce" "invoice" = 1
     ∧ is_fuzzy_match "invo1ce" "invoice" = true)
  ∧ (Py.contains "abc" "xyz" = false
     ∧ Levenshtein.distance "xyz" "abc" = 3
     ∧ is_fuzzy_match "xyz" "abc" = false).
Proof.
  split; [apply len_lower|]. split; [|by vm_compute].
  intros w t Hsub. apply (is_fuzzy_match_distance w t Hsub).
Qed.

Lemma fuzzy_rule_thresholds_witness :
  Py.contains (Py.lower "invoice") (Py.lower "invo1ce") = false
  ∧ (is_fuzzy_match "invo1ce" "invoice" = true ↔
       (Py.len "invoice" ≤ 5
        ∧ Levenshtein.distance (Py.lower "invo1ce") (Py.lower "invoice") ≤ 1)
       ∨ (5 < Py.len "invoice" < 10
          ∧ Levenshtein.distance (Py.lower "invo1ce") (Py.lower "invoice") ≤ 2)
       ∨ (10 ≤ Py.len "invoice"
          ∧ Levenshtein.distance (Py.lower "invo1ce") (Py.lower "invoice") ≤ 3)).
Proof.
  split; [reflexivity|].
  apply (proj1 (proj2 fuzzy_rule_thresholds) "invo1ce" "invoice"). reflexivity.
Defined.

(** C3.  When the lowercased term occurs in the lowercased word,
    [is_fuzzy_match] holds, whatever the edit distance and the length of
    the term: "time" matches "timetable", at distance 5 from it, where the
    threshold for a term of length 4 is 1. *)
Theorem substring_rule :
  (∀ w t : string,
     Py.contains (Py.lower t) (Py.lower w) = true → is_fuzzy_match w t = true)
  ∧ (Py.contains "time" "timetable" = true
     ∧ Levenshtein.distance "timetable" "time" = 5
     ∧ Py.len "time" = 4
     ∧ is_fuzzy_match "timetable" "time" = true).
Proof.
  split; [|by vm_compute].
  intros w t. apply is_fuzzy_match_substring.
Qed.

Lemma substring_rule_witness :
  Py.contains (Py.lower "time") (Py.lower "timetable") = true
  ∧ is_fuzzy_match "timetable" "time" = true.
Proof.
  split; [reflexivity|].
  apply (proj1 substring_rule "timetable" "time"). reflexivity.
Defined.

(** C9.  [is_fuzzy_match] lowercases both arguments itself: its value on
    [w] and [t] is its value on their lowercased forms. *)
Theorem matcher_case_insensitive (w t : string) :
  is_fuzzy_match w t = is_fuzzy_match (Py.lower w) (Py.lower t).
Proof. unfold is_fuzzy_match. rewrite !lower_idem. reflexivity. Qed.

Example capitals_match :
  is_fuzzy_match "INVO1CE" "Invoice" = true
  ∧ is_fuzzy_match "TimeTable" "TIME" = true
  ∧ is_fuzzy_match "XYZ" "abc" = false.
Proof. by vm_compute. Qed.

(** ** The parser *)

Section Parser.

Import Py.

Lemma lstrip_head s c r : lstrip s = String c r → isspace c = false.
Proof.
  induction s as [|a s IH]; simpl; [done|].
  destruct (isspace a) eqn:Ha; [done|].
  intros [= <- _]. done.
Qed.

Lemma rstrip_head c s : isspace c = false → ∃ r, rstrip (String c s) = String c r.
Proof.
  intros Hc. simpl. rewrite Hc. destruct (rstrip s); eauto.
Qed.

Lemma strip_head s c r : strip s = String c r → isspace c = false.
Proof.
  unfold strip. destruct (lstrip s) as [|a l] eqn:El; [done|].
  pose proof (lstrip_head _ _ _ El) as Ha.
  destruct (rstrip_head a l Ha) as [r' ->]. by intros [= <- _].
Qed.

Lemma strip_keeps_head c s :
  isspace c = false → ∃ r, strip (String c s) = String c r.
Proof.
  intros Hc. unfold strip. simpl lstrip. rewrite Hc. by apply rstrip_head.
Qed.

Lemma split_from_cons sep s k : ∃ piece rest, split_from sep s k = piece :: rest.
Proof.
  revert k. induction s as [|c s IH]; intros k; simpl; [eauto|].
  destruct k as [|k]; [|apply IH].
  destruct (startswith sep (String c s)); [eauto|].
  destruct (IH 0) as (p & rest & ->). eauto.
Qed.

Lemma startswith_cons a p b s :
  startswith (String a p) (String b s) =
  if Ascii.eqb a b then startswith p s else false.
Proof. reflexivity. Qed.

Lemma split_from_here sep c s :
  split_from sep (String c s) 0 =
  if startswith sep (String c s)
  then "" :: split_from sep s (String.length sep - 1)
  else match split_from sep s 0 with
       | piece :: rest => String c piece :: rest
       | [] => [String c ""]
       end.
Proof. reflexivity. Qed.

Lemma split_from_skip sep c s k :
  split_from sep (String c s) (S k) = split_from sep s k.
Proof. reflexivity. Qed.

(** A string that starts with a character that is not white space keeps
    it at the head of its first piece, for a delimiter that starts with
    a space. *)
Lemma split_keeps_head c s sep :
  isspace c = false →
  ∃ piece rest, split (String c s) (String " " sep) = String c piece :: rest.
Proof.
  intros Hc. unfold split. rewrite split_from_here, startswith_cons.
  destruct (Ascii.eqb_spec " " c) as [<-|_]; [done|].
  destruct (split_from_cons (String " " sep) s 0) as (p & rest & ->). eauto.
Qed.

Lemma terms_of_pieces_nonempty c s sep :
  isspace c = false →
  map lower (List.filter truthy (map strip (split (String c s) (String " " sep)))) ≠ [].
Proof.
  intros Hc. destruct (split_keeps_head c s sep Hc) as (p & rest & ->).
  simpl map. destruct (strip_keeps_head c p Hc) as [r ->]. done.
Qed.

(** Line 245 never finds an empty list: a query that is not empty once
    trimmed has a term. *)
Lemma parse_terms_nonempty q :
  strip (lower q) ≠ "" → (parse_terms (strip (lower q))).2 ≠ [].
Proof.
  destruct (strip (lower q)) as [|c s] eqn:E; [done|]. intros _.
  pose proof (strip_head _ _ _ E) as Hc.
  unfold parse_terms.
  destruct (contains " AND " _); [|destruct (contains " OR " _)]; simpl snd.
  - rewrite upper_cons. apply terms_of_pieces_nonempty.
    by rewrite isspace_char_upper.
  - rewrite upper_cons. apply terms_of_pieces_nonempty.
    by rewrite isspace_char_upper.
  - by apply terms_of_pieces_nonempty.
Qed.

Lemma parse_terms_no_empty_term query : "" ∉ (parse_terms query).2.
Proof.
  assert (H : ∀ l, "" ∉ map lower (List.filter truthy l)).
  { intros l. rewrite list_elem_of_In, in_map_iff. intros (t & Ht & Hin).
    apply filter_In in Hin as [_ Hin]. by destruct t. }
  unfold parse_terms.
  destruct (contains " AND " _); [|destruct (contains " OR " _)]; apply H.
Qed.

(** *** The pieces of a split

    Joined again with the delimiter, the pieces give the string back. *)

Lemma startswith_drop sep s :
  startswith sep s = true → s = sep +:+ drop (String.length sep) s.
Proof.
  revert s. induction sep as [|a sep IH]; intros s; [done|].
  destruct s as [|b s]; [done|]. rewrite startswith_cons.
  destruct (Ascii.eqb_spec a b) as [->|_]; [|done].
  intros H.
  change (String b s = String b (sep +:+ drop (String.length sep) s)).
  f_equal. by apply IH.
Qed.

Lemma startswith_length sep s :
  startswith sep s = true → String.length sep ≤ String.length s.
Proof.
  revert s. induction sep as [|a sep IH]; intros s; simpl; [lia|].
  destruct s as [|b s]; [done|]. destruct (Ascii.eqb a b); [|done].
  intros H%IH. simpl. lia.
Qed.

Lemma concat_cons_head sep c piece rest :
  String.concat sep (String c piece :: rest)
  = String c (String.concat sep (piece :: rest)).
Proof. by destruct rest. Qed.

Lemma concat_cons_cons sep first piece rest :
  String.concat sep (first :: piece :: rest)
  = first +:+ sep +:+ String.concat sep (piece :: rest).
Proof. reflexivity. Qed.

Lemma concat_split_from sep s k :
  sep ≠ "" → k ≤ String.length s →
  String.concat sep (split_from sep s k) = drop k s.
Proof.
  intros Hsep. revert k. induction s as [|c s IH]; intros k Hk.
  - simpl in Hk. by replace k with 0 by lia.
  - destruct k as [|k].
    + rewrite split_from_here.
      destruct (startswith sep (String c s)) eqn:E.
      * pose proof (startswith_length _ _ E) as Hlen. simpl in Hlen.
        assert (0 < String.length sep) by (destruct sep; [done|simpl; lia]).
        destruct (split_from_cons sep s (String.length sep - 1))
          as (piece & rest & Hs).
        rewrite Hs, concat_cons_cons, <-Hs, IH by lia.
        change (sep +:+ drop (String.length sep - 1) s = String c s).
        rewrite (startswith_drop _ _ E) at 1.
        by replace (String.length sep) with (S (String.length sep - 1)) at 2 by lia.
      * destruct (split_from_cons sep s 0) as (piece & rest & Hs).
        rewrite Hs, concat_cons_head, <-Hs, IH by lia. done.
    + rewrite split_from_skip. simpl in Hk. rewrite IH by lia. done.
Qed.

Lemma join_split s sep : sep ≠ "" → String.concat sep (split s sep) = s.
Proof. intros Hsep. unfold split. rewrite concat_split_from; [done..|lia]. Qed.

(** *** Splitting the uppercased form

    On a string without capitals, to look for the capital delimiter in
    the uppercased form is to look for the small delimiter in the string
    itself. *)

Lemma char_upper_back c : char_lower c = c → char_lower (char_upper c) = c.
Proof.
  destruct c as [[] [] [] [] [] [] [] []]; intros H;
    first [reflexivity | discriminate H].
Qed.

Lemma eqb_char_upper a b :
  char_lower a = a → char_lower b = b →
  Ascii.eqb (char_upper a) (char_upper b) = Ascii.eqb a b.
Proof.
  intros Ha Hb.
  destruct (Ascii.eqb_spec a b) as [->|Hne]; [apply Ascii.eqb_refl|].
  apply Ascii.eqb_neq. intros E. apply Hne.
  by rewrite <-(char_upper_back a Ha), <-(char_upper_back b Hb), E.
Qed.

Lemma lower_fixed_cons c s :
  lower (String c s) = String c s → char_lower c = c ∧ lower s = s.
Proof. rewrite lower_cons. by intros [= ? ?]. Qed.

Lemma startswith_upper p s :
  lower p = p → lower s = s →
  startswith (upper p) (upper s) = startswith p s.
Proof.
  revert s. induction p as [|a p IH]; intros s Hp Hs; [done|].
  destruct s as [|b s]; [done|].
  apply lower_fixed_cons in Hp as [Ha Hp], Hs as [Hb Hs].
  rewrite !upper_cons, !startswith_cons, eqb_char_upper, IH by done. done.
Qed.

Lemma contains_nil t : contains t "" = startswith t "" || false.
Proof. reflexivity. Qed.

Lemma contains_cons t b s :
  contains t (String b s) = startswith t (String b s) || contains t s.
Proof. reflexivity. Qed.

Lemma contains_upper t s :
  lower t = t → lower s = s → contains (upper t) (upper s) = contains t s.
Proof.
  intros Ht. induction s as [|b s IH]; intros Hs.
  - change (upper "") with "". by rewrite !contains_nil, <-(startswith_upper t "").
  - pose proof Hs as Hs'. apply lower_fixed_cons in Hs' as [_ Hs'].
    rewrite upper_cons, !contains_cons, <-upper_cons.
    by rewrite startswith_upper, IH.
Qed.

Lemma split_from_upper sep s k :
  lower sep = sep → lower s = s →
  split_from (upper sep) (upper s) k = map upper (split_from sep s k).
Proof.
  intros Hsep. revert k. induction s as [|c s IH]; intros k Hs; [done|].
  pose proof Hs as Hs'. apply lower_fixed_cons in Hs' as [_ Hs'].
  rewrite upper_cons. destruct k as [|k].
  - rewrite !split_from_here, <-upper_cons, startswith_upper by done.
    replace (String.length (upper sep)) with (String.length sep)
      by (symmetry; apply length_map_chars).
    destruct (startswith sep (String c s)).
    + by rewrite IH.
    + rewrite IH by done.
      by destruct (split_from_cons sep s 0) as (piece & rest & ->).
  - rewrite !split_from_skip. by apply IH.
Qed.

Lemma split_upper s sep :
  lower sep = sep → lower s = s →
  split (upper s) (upper sep) = map upper (split s sep).
Proof. apply split_from_upper. Qed.

End Parser.

Lemma terms_as_specified pieces :
  map Py.lower (List.filter Py.truthy (map Py.strip pieces)) = spec_terms pieces.
Proof.
  unfold spec_terms. induction pieces as [|p pieces IH]; simpl; [done|].
  rewrite <-IH. by destruct (Py.strip p).
Qed.

Lemma spec_terms_upper pieces :
  spec_terms (map Py.upper pieces) = spec_terms pieces.
Proof.
  unfold spec_terms. rewrite map_map. f_equal. apply map_ext. intros p.
  by rewrite strip_upper, lower_upper.
Qed.

(** C5.  The query is trimmed and lowercased (in either order).  If its
    uppercased form contains " AND ", the mode is AND and the terms are the
    pieces between the occurrences of that delimiter; otherwise, if it
    contains " OR ", the mode is OR with the pieces between those;
    otherwise the mode is OR with the pieces between single spaces.  Each
    piece is trimmed and lowercased and the empty ones are discarded.  As
    the query has no capitals, the delimiter is found in its uppercased
    form where " and " (or " or ") stands in the query itself.  "cat AND
    dog" gives AND with cat and dog, "cat OR dog" and "cat dog" give OR with
    the same terms. *)
Theorem query_parsing :
  (∀ raw : string,
     let query := Py.lower (Py.strip raw) in
     Py.strip (Py.lower raw) = query
     ∧ parse_terms query =
       if Py.contains " AND " (Py.upper query)
       then (AND, spec_terms (Py.split (Py.upper query) " AND "))
       else if Py.contains " OR " (Py.upper query)
       then (OR, spec_terms (Py.split (Py.upper query) " OR "))
       else (OR, spec_terms (Py.split query " ")))
  ∧ (∀ raw : string,
       let query := Py.lower (Py.strip raw) in
       Py.contains " AND " (Py.upper query) = Py.contains " and " query
       ∧ Py.contains " OR " (Py.upper query) = Py.contains " or " query
       ∧ spec_terms (Py.split (Py.upper query) " AND ")
         = spec_terms (Py.split query " and ")
       ∧ spec_terms (Py.split (Py.upper query) " OR ")
         = spec_terms (Py.split query " or "))
  ∧ parse_terms (Py.strip (Py.lower "cat AND dog")) = (AND, ["cat"; "dog"])
  ∧ parse_terms (Py.strip (Py.lower "cat OR dog")) = (OR, ["cat"; "dog"])
  ∧ parse_terms (Py.strip (Py.lower "cat dog")) = (OR, ["cat"; "dog"]).
Proof.
  split; [|split; [|by vm_compute]].
  - intros raw query. split; [apply strip_lower|].
    unfold parse_terms.
    destruct (Py.contains " AND " _); [|destruct (Py.contains " OR " _)];
      by rewrite terms_as_specified.
  - intros raw query.
    assert (Hq : Py.lower query = query) by apply lower_idem.
    change " AND " with (Py.upper " and "). change " OR " with (Py.upper " or ").
    rewrite !contains_upper, !split_upper, !spec_terms_upper by done. done.
Qed.


(** C10.  The empty term matches every word, since it occurs in every
    string; a parsed query has no empty term. *)
Theorem empty_term_matches_all :
  (∀ w : string, is_fuzzy_match w "" = true)
  ∧ (∀ query : string, "" ∉ (parse_terms query).2).
Proof.
  split.
  - intros w. apply is_fuzzy_match_substring. apply contains_empty.
  - apply parse_terms_no_empty_term.
Qed.

(** ** The scan of one image *)

Section Scan.

Lemma scan_word_eq term found hl wd :
  scan_word term (found, hl) wd =
  if matches_term term wd then (true, push hl wd) else (found, hl).
Proof.
  destruct hl as [data bboxes]. unfold scan_word, matches_term, push. simpl.
  destruct (is_fuzzy_match (text wd) term); [|done].
  by destruct (decide (bbox wd ∈ bboxes)).
Qed.

Lemma scan_word_fold term words found hl :
  fold_left (scan_word term) words (found, hl) =
  (found || existsb (matches_term term) words,
   fold_left push (List.filter (matches_term term) words) hl).
Proof.
  revert found hl. induction words as [|wd words IH]; intros found hl.
  - cbn [fold_left existsb List.filter]. by rewrite orb_false_r.
  - cbn [fold_left existsb List.filter]. rewrite scan_word_eq.
    destruct (matches_term term wd); rewrite IH; cbn [fold_left orb];
      by rewrite ?orb_true_r.
Qed.

Lemma scan_term_eq words n hl t :
  scan_term words (n, hl) t =
  (if spec_term_found words t then S n else n,
   fold_left push (List.filter (matches_term t) words) hl).
Proof. unfold scan_term. by rewrite scan_word_fold. Qed.

Lemma scan_term_fold words terms n hl :
  fold_left (scan_term words) terms (n, hl) =
  (n + length (List.filter (spec_term_found words) terms),
   fold_left push (hits terms words) hl).
Proof.
  revert n hl. induction terms as [|t terms IH]; intros n hl.
  - cbn [fold_left List.filter hits flat_map length]. f_equal. lia.
  - cbn [fold_left List.filter hits flat_map]. rewrite scan_term_eq, IH.
    rewrite fold_left_app. fold (hits terms words).
    destruct (spec_term_found words t); cbn [length]; f_equal; lia.
Qed.

Lemma scan_image_eq terms words :
  scan_image terms words =
  (length (List.filter (spec_term_found words) terms),
   fold_left push (hits terms words) ([], ∅)).
Proof. unfold scan_image. by rewrite scan_term_fold. Qed.

Lemma consistent_empty : consistent ([], ∅).
Proof. split; simpl; [constructor|]. intros b. set_solver. Qed.

Lemma push_consistent hl wd : consistent hl → consistent (push hl wd).
Proof.
  intros [Hnd Hset]. unfold push. destruct (decide _) as [Hin|Hout]; [done|].
  split; simpl; rewrite map_app; simpl.
  - apply NoDup_app. split_and!; [done| |apply NoDup_singleton].
    intros b Hb ->%list_elem_of_singleton. by apply Hout, Hset.
  - intros b. rewrite elem_of_union, elem_of_singleton, elem_of_app,
      list_elem_of_singleton, Hset. done.
Qed.

Lemma push_boxes hl wd b :
  b ∈ (push hl wd).2 ↔ b ∈ hl.2 ∨ b = bbox wd.
Proof.
  unfold push. destruct (decide _) as [Hin|Hout]; simpl.
  - split; [auto|]. by intros [?| ->].
  - by rewrite elem_of_union, elem_of_singleton.
Qed.

Lemma push_words hl wd x : x ∈ (push hl wd).1 → x ∈ hl.1 ∨ x = wd.
Proof.
  unfold push. destruct (decide _); simpl; [auto|].
  rewrite elem_of_app, list_elem_of_singleton. done.
Qed.

Lemma fold_push_consistent cands hl :
  consistent hl → consistent (fold_left push cands hl).
Proof.
  revert hl. induction cands as [|wd cands IH]; intros hl H; simpl; [done|].
  by apply IH, push_consistent.
Qed.

Lemma fold_push_boxes cands hl b :
  b ∈ (fold_left push cands hl).2 ↔ b ∈ hl.2 ∨ b ∈ map bbox cands.
Proof.
  revert hl. induction cands as [|wd cands IH]; intros hl; simpl.
  - rewrite elem_of_nil. tauto.
  - rewrite IH, push_boxes, elem_of_cons. tauto.
Qed.

Lemma fold_push_words cands hl x :
  x ∈ (fold_left push cands hl).1 → x ∈ hl.1 ∨ x ∈ cands.
Proof.
  revert hl. induction cands as [|wd cands IH]; intros hl; simpl; [auto|].
  intros [Hx|Hx]%IH; [|right; by right].
  apply push_words in Hx as [?| ->]; [by left|right; by left].
Qed.

Lemma elem_of_hits terms words wd :
  wd ∈ hits terms words ↔
  wd ∈ words ∧ ∃ t, t ∈ terms ∧ is_fuzzy_match (text wd) t = true.
Proof.
  unfold hits. rewrite list_elem_of_In, in_flat_map. split.
  - intros (t & Ht & Hwd). apply filter_In in Hwd as [Hwd Hm].
    rewrite <-!list_elem_of_In in *. eauto.
  - intros (Hwd & t & Ht & Hm). exists t.
    rewrite filter_In, <-!list_elem_of_In. done.
Qed.

(** The highlights of an image: its [matched_words_data] at the end of
    the scan. *)
Lemma scan_image_highlights terms words :
  let data := (scan_image terms words).2.1 in
  NoDup (map bbox data)
  ∧ (∀ wd, wd ∈ data →
       wd ∈ words ∧ ∃ t, t ∈ terms ∧ is_fuzzy_match (text wd) t = true)
  ∧ (∀ b, b ∈ map bbox data ↔ b ∈ map bbox (hits terms words)).
Proof.
  rewrite scan_image_eq. simpl.
  pose proof (fold_push_consistent (hits terms words) _ consistent_empty)
    as [Hnd Hset].
  split_and!; [done| |].
  - intros wd [Hwd|Hwd]%fold_push_words; [by apply elem_of_nil in Hwd|].
    by apply elem_of_hits.
  - intros b. rewrite <-Hset, fold_push_boxes. simpl.
    rewrite elem_of_empty. tauto.
Qed.

Lemma scan_image_count terms words :
  (scan_image terms words).1 =
  length (List.filter (spec_term_found words) terms).
Proof. by rewrite scan_image_eq. Qed.

Lemma scan_image_nil terms : scan_image terms [] = (0, ([], ∅)).
Proof.
  rewrite scan_image_eq. f_equal.
  - induction terms; simpl; [done|]. done.
  - replace (hits terms []) with (@nil WordData); [done|].
    unfold hits. induction terms; simpl; done.
Qed.

End Scan.

(** ** The loop over the rows *)

Section Rows.

Lemma count_all {A} (P : A → bool) l :
  (length (List.filter P l) =? length l) = forallb P l.
Proof.
  assert (Hle : ∀ k : list A, length (List.filter P k) ≤ length k).
  { induction k as [|x k IH]; simpl; [lia|]. destruct (P x); simpl; lia. }
  induction l as [|x l IH]; simpl; [done|].
  destruct (P x); simpl; [done|].
  apply Nat.eqb_neq. specialize (Hle l). lia.
Qed.

Lemma count_some {A} (P : A → bool) l :
  (0 <? length (List.filter P l)) = existsb P l.
Proof.
  induction l as [|x l IH]; simpl; [done|]. by destruct (P x).
Qed.

Lemma visit_image_eq search_type terms matches image :
  terms ≠ [] →
  visit_image search_type terms matches image =
  (matches ++ if spec_included search_type terms image
              then [make_match image (highlights terms image)] else [])%list.
Proof.
  intros Hne. unfold visit_image, highlights, spec_included.
  pose proof (scan_image_count terms (words_in_image image)) as Hc.
  destruct (scan_image terms (words_in_image image)) as [n [data bboxes]].
  simpl in Hc. subst n. simpl.
  destruct search_type; simpl.
  - rewrite count_all. destruct (forallb _ _); by rewrite ?app_nil_r.
  - rewrite count_some. destruct (existsb _ _); by rewrite ?app_nil_r.
Qed.

Lemma visit_images search_type terms images matches :
  terms ≠ [] →
  fold_left (visit_image search_type terms) images matches =
  (matches ++ map (λ image, make_match image (highlights terms image))
                  (List.filter (spec_included search_type terms) images))%list.
Proof.
  intros Hne. revert matches.
  induction images as [|image images IH]; intros matches.
  - simpl. by rewrite app_nil_r.
  - cbn [fold_left List.filter]. rewrite IH, visit_image_eq by done.
    destruct (spec_included search_type terms image); simpl.
    + by rewrite <-app_assoc.
    + by rewrite app_nil_r.
Qed.

(** The result of a search on at least one term: the rows that are
    included, in the order of the table, each with its highlights. *)
Lemma search_eq search_type terms images :
  terms ≠ [] →
  search search_type terms images =
  map (λ image, make_match image (highlights terms image))
      (List.filter (spec_included search_type terms) images).
Proof.
  intros Hne. unfold search. destruct terms as [|t terms]; [done|].
  by rewrite visit_images.
Qed.

Lemma search_no_terms search_type images : search search_type [] images = [].
Proof. reflexivity. Qed.

Lemma spec_term_found_iff words t :
  spec_term_found words t = true ↔
  ∃ wd, wd ∈ words ∧ is_fuzzy_match (text wd) t = true.
Proof.
  unfold spec_term_found. rewrite existsb_exists.
  split; intros (wd & Hwd & Hm); exists wd; by rewrite ?list_elem_of_In in *.
Qed.

Lemma search_images_accepted q images search_type terms :
  Py.strip (Py.lower (default "" q)) ≠ "" →
  parse_terms (Py.strip (Py.lower (default "" q))) = (search_type, terms) →
  terms ≠ [] ∧ search_images q images = Found (search search_type terms images).
Proof.
  intros Hq Hp. split.
  - pose proof (parse_terms_nonempty _ Hq) as H. by rewrite Hp in H.
  - unfold search_images. rewrite Hp.
    by destruct (Py.strip (Py.lower (default "" q))).
Qed.

End Rows.

(** ** The search *)

Section Search.

Lemma elem_of_map_bbox b (l : list WordData) :
  b ∈ map bbox l ↔ ∃ wd, wd ∈ l ∧ bbox wd = b.
Proof.
  rewrite list_elem_of_In, in_map_iff.
  split; intros (wd & H1 & H2); exists wd; by rewrite ?list_elem_of_In in *.
Qed.

Lemma NoDup_of_map {A B} (f : A → B) l : NoDup (map f l) → NoDup l.
Proof.
  induction l as [|x l IH]; simpl; intros Hl; [constructor|].
  apply NoDup_cons in Hl as [Hx Hl]. apply NoDup_cons. split; [|by apply IH].
  intros Hin. apply Hx. rewrite list_elem_of_In. apply in_map.
  by rewrite <-list_elem_of_In.
Qed.

Lemma highlights_spec terms image :
  NoDup (map bbox (highlights terms image))
  ∧ (∀ wd, wd ∈ highlights terms image →
       wd ∈ words_in_image image
       ∧ ∃ t, t ∈ terms ∧ is_fuzzy_match (text wd) t = true)
  ∧ (∀ wd t, wd ∈ words_in_image image → t ∈ terms →
       is_fuzzy_match (text wd) t = true →
       bbox wd ∈ map bbox (highlights terms image)).
Proof.
  destruct (scan_image_highlights terms (words_in_image image))
    as (Hnd & Hsub & Hbox).
  split_and!; [done..|].
  intros wd t Hwd Ht Hm. apply Hbox, elem_of_map_bbox. exists wd.
  split; [|done]. apply elem_of_hits. eauto.
Qed.

(** The highlights in closed form: the matching words in the order of the
    scan, each box at its first coming. *)
Lemma fold_push_keep_first cands hl seen :
  (∀ b, b ∈ hl.2 ↔ b ∈ seen) →
  (fold_left push cands hl).1 = (hl.1 ++ keep_first seen cands)%list.
Proof.
  revert hl seen.
  induction cands as [|wd cands IH]; intros hl seen Hseen;
    cbn [fold_left keep_first].
  - by rewrite app_nil_r.
  - unfold push at 2. destruct (decide (bbox wd ∈ hl.2)) as [Hin|Hout].
    + rewrite bool_decide_eq_true_2 by (by apply Hseen). by apply IH.
    + rewrite bool_decide_eq_false_2 by (by rewrite <-Hseen).
      rewrite (IH _ (bbox wd :: seen)); simpl.
      * by rewrite <-app_assoc.
      * intros b. rewrite elem_of_union, elem_of_singleton, elem_of_cons, Hseen.
        tauto.
Qed.

Lemma highlights_first_by_box terms image :
  highlights terms image = first_by_box (hits terms (words_in_image image)).
Proof.
  unfold highlights, first_by_box. rewrite scan_image_eq. simpl.
  rewrite (fold_push_keep_first _ _ []); [done|].
  intros b. simpl. rewrite elem_of_empty, elem_of_nil. tauto.
Qed.

Lemma search_first_by_box search_type terms images :
  Forall (λ m, ∃ image,
            image ∈ images
            ∧ m = make_match image
                    (first_by_box (hits terms (words_in_image image))))
         (search search_type terms images).
Proof.
  destruct terms as [|t terms]; [constructor|].
  rewrite search_eq by done. apply Forall_forall.
  intros m (image & <- & Hin)%list_elem_of_In%in_map_iff.
  apply filter_In in Hin as [Hin _]. exists image.
  by rewrite list_elem_of_In, highlights_first_by_box.
Qed.

Lemma elem_of_search search_type terms images m :
  m ∈ search search_type terms images →
  ∃ image, image ∈ images ∧ m = make_match image (highlights terms image).
Proof.
  destruct terms as [|t terms]; [by intros ?%elem_of_nil|].
  rewrite search_eq by done.
  rewrite list_elem_of_In, in_map_iff. intros (image & <- & Hin).
  apply filter_In in Hin as [Hin _]. exists image.
  by rewrite list_elem_of_In.
Qed.

(** *** A row without words *)

Lemma spec_included_no_words search_type terms image :
  terms ≠ [] → words_in_image image = [] →
  spec_included search_type terms image = false.
Proof.
  intros Hne Hw. unfold spec_included. rewrite Hw.
  destruct search_type.
  - destruct terms as [|t terms]; [done|]. reflexivity.
  - induction terms as [|t terms IH]; [done|]. simpl.
    destruct terms; [done|]. by apply IH.
Qed.

Lemma search_skips search_type terms before image after :
  words_in_image image = [] →
  search search_type terms (before ++ image :: after) =
  search search_type terms (before ++ after).
Proof.
  intros Hw. destruct (decide (terms = [])) as [->|Hne]; [done|].
  rewrite !search_eq, !List.filter_app by done. cbn [List.filter].
  by rewrite spec_included_no_words.
Qed.

(** *** The order of the terms *)

Lemma forallb_perm {A} (P : A → bool) l l' :
  l ≡ₚ l' → forallb P l = forallb P l'.
Proof.
  induction 1 as [|x l l' _ IH|x y l|l l' l'' _ IH1 _ IH2]; simpl;
    [done|by rewrite IH|by destruct (P x), (P y)|congruence].
Qed.

Lemma existsb_perm {A} (P : A → bool) l l' :
  l ≡ₚ l' → existsb P l = existsb P l'.
Proof.
  induction 1 as [|x l l' _ IH|x y l|l l' l'' _ IH1 _ IH2]; simpl;
    [done|by rewrite IH|by destruct (P x), (P y)|congruence].
Qed.

Lemma spec_included_perm search_type terms terms' image :
  terms ≡ₚ terms' →
  spec_included search_type terms image = spec_included search_type terms' image.
Proof.
  intros Hp. destruct search_type; simpl;
    [by apply forallb_perm | by apply existsb_perm].
Qed.

Lemma highlights_boxes terms image b :
  b ∈ map bbox (highlights terms image) ↔
  ∃ wd t, wd ∈ words_in_image image ∧ t ∈ terms
          ∧ is_fuzzy_match (text wd) t = true ∧ bbox wd = b.
Proof.
  destruct (highlights_spec terms image) as (_ & Hsub & Hbox). split.
  - intros (wd & Hwd & <-)%elem_of_map_bbox.
    destruct (Hsub wd Hwd) as (Hin & t & Ht & Hm). eauto 6.
  - intros (wd & t & Hwd & Ht & Hm & <-). eauto.
Qed.

Lemma highlights_perm_boxes terms terms' image b :
  terms ≡ₚ terms' →
  b ∈ map bbox (highlights terms image) ↔
  b ∈ map bbox (highlights terms' image).
Proof.
  intros Hp. rewrite !highlights_boxes.
  split; intros (wd & t & Hwd & Ht & Hm & Hb); exists wd, t;
    split_and!; try done; [by rewrite <-Hp | by rewrite Hp].
Qed.

Lemma highlights_perm_length terms terms' image :
  terms ≡ₚ terms' →
  length (highlights terms image) = length (highlights terms' image).
Proof.
  intros Hp.
  rewrite <-(length_map bbox (highlights terms image)),
          <-(length_map bbox (highlights terms' image)).
  apply Permutation_length, NoDup_Permutation.
  - apply highlights_spec.
  - apply highlights_spec.
  - intros b. by apply highlights_perm_boxes.
Qed.

(** When the boxes of an image are pairwise distinct, its highlights are
    its matching words, in some order. *)
Lemma highlights_distinct_boxes terms image :
  NoDup (map bbox (words_in_image image)) →
  highlights terms image ≡ₚ
  List.filter (λ wd, existsb (λ t, matches_term t wd) terms)
              (words_in_image image).
Proof.
  intros Hnd. destruct (highlights_spec terms image) as (Hnd' & Hsub & Hbox).
  assert (Hinj : ∀ w1 w2, w1 ∈ words_in_image image →
                   w2 ∈ words_in_image image → bbox w1 = bbox w2 → w1 = w2).
  { revert Hnd. generalize (words_in_image image) as l.
    induction l as [|x l IH]; simpl; intros Hl w1 w2 H1 H2 E.
    { by apply elem_of_nil in H1. }
    apply NoDup_cons in Hl as [Hx Hl].
    apply elem_of_cons in H1 as [->|H1], H2 as [->|H2]; [done| | |by apply IH].
    - destruct Hx. rewrite E. apply elem_of_map_bbox. eauto.
    - destruct Hx. rewrite <-E. apply elem_of_map_bbox. eauto. }
  apply NoDup_Permutation.
  - by apply (NoDup_of_map bbox).
  - apply NoDup_ListNoDup, List.NoDup_filter, NoDup_ListNoDup.
    by apply (NoDup_of_map bbox).
  - intros wd. rewrite (list_elem_of_In (List.filter _ _)), filter_In,
      <-list_elem_of_In, existsb_exists. split.
    + intros Hwd. destruct (Hsub wd Hwd) as (Hin & t & Ht & Hm).
      split; [done|]. exists t. by rewrite <-list_elem_of_In.
    + intros (Hwd & t & Ht & Hm). rewrite <-list_elem_of_In in Ht.
      pose proof (Hbox wd t Hwd Ht Hm) as (wd' & Hwd' & E)%elem_of_map_bbox.
      destruct (Hsub wd' Hwd') as (Hin' & _).
      by rewrite <-(Hinj wd' wd Hin' Hwd E).
Qed.

Lemma Forall2_map_same {A B} (R : B → B → Prop) (f g : A → B) l :
  (∀ x, x ∈ l → R (f x) (g x)) → Forall2 R (map f l) (map g l).
Proof.
  induction l as [|x l IH]; simpl; intros H; constructor.
  - apply H. by left.
  - apply IH. intros y Hy. apply H. by right.
Qed.

End Search.

(** C2.  For a query that the endpoint accepts, with its parsed mode and
    terms: the answer lists, in table order, the rows that are included,
    each with its highlights.  With AND a row is included exactly when every
    term matches some word of the image, that is when the count of found
    terms is the number of terms; with OR exactly when some term matches some
    word, that is when the count is positive.  An image with "cat" in one box
    and "dog" in another is included for "cat AND dog".  The same filter
    describes [search] on any list of at least one term. *)
Theorem inclusion_by_mode :
  (∀ (q : option string) (all_images : list Row)
     (search_type : SearchType) (search_terms : list string),
     Py.strip (Py.lower (default "" q)) ≠ "" →
     parse_terms (Py.strip (Py.lower (default "" q)))
       = (search_type, search_terms) →
     search_images q all_images =
       Found (map (λ image, make_match image (highlights search_terms image))
                  (List.filter (spec_included search_type search_terms)
                               all_images))
     ∧ ∀ image : Row,
         let words := words_in_image image in
         let terms_found_count := (scan_image search_terms words).1 in
         terms_found_count
           = length (List.filter (spec_term_found words) search_terms)
         ∧ (spec_included AND search_terms image = true ↔
              terms_found_count = length search_terms)
         ∧ (spec_included AND search_terms image = true ↔
              ∀ t, t ∈ search_terms →
                   ∃ wd, wd ∈ words ∧ is_fuzzy_match (text wd) t = true)
         ∧ (spec_included OR search_terms image = true ↔
              0 < terms_found_count)
         ∧ (spec_included OR search_terms image = true ↔
              ∃ t wd, t ∈ search_terms ∧ wd ∈ words
                      ∧ is_fuzzy_match (text wd) t = true))
  ∧ (∀ (search_type : SearchType) (search_terms : list string)
       (all_images : list Row),
       search_terms ≠ [] →
       search search_type search_terms all_images =
         map (λ image, make_match image (highlights search_terms image))
             (List.filter (spec_included search_type search_terms)
                          all_images))
  ∧ search_images (Some "cat AND dog") [pets]
    = Found [make_match pets [w_cat; w_dog]].
Proof.
  split; [|split; [apply search_eq|by vm_compute]].
  intros q all_images search_type search_terms Hq Hp.
  destruct (search_images_accepted q all_images _ _ Hq Hp) as [Hne ->].
  split; [by rewrite search_eq|].
  intros image words terms_found_count.
  subst terms_found_count. rewrite scan_image_count. unfold spec_included.
  split_and!.
  - done.
  - by rewrite <-count_all, Nat.eqb_eq.
  - rewrite forallb_forall. setoid_rewrite <-list_elem_of_In.
    by setoid_rewrite spec_term_found_iff.
  - by rewrite <-count_some, Nat.ltb_lt.
  - rewrite existsb_exists. setoid_rewrite <-list_elem_of_In.
    setoid_rewrite spec_term_found_iff. split.
    + intros (t & Ht & wd & Hwd & Hm). by exists t, wd.
    + intros (t & wd & Ht & Hwd & Hm). exists t. split; [done|]. by exists wd.
Qed.

Lemma inclusion_by_mode_witness :
  search_images (Some "cat AND dog") [pets; stamp; pending] =
  Found (map (λ image, make_match image (highlights ["cat"; "dog"] image))
             (List.filter (spec_included AND ["cat"; "dog"])
                          [pets; stamp; pending])).
Proof.
  apply (proj1 inclusion_by_mode (Some "cat AND dog") [pets; stamp; pending]
               AND ["cat"; "dog"]).
  - vm_compute. discriminate.
  - vm_compute. reflexivity.
Defined.

(** C4.  In the [matched_words] of every entry of a result no box occurs
    twice; each listed word is a word of the image that matches some term;
    and the box of every word of the image that matches some term is
    listed.  A word that two terms match is listed once. *)
Theorem highlights_deduplicated :
  (∀ (search_type : SearchType) (search_terms : list string)
     (all_images : list Row) (m : Match),
     m ∈ search search_type search_terms all_images →
     ∃ image : Row,
       image ∈ all_images
       ∧ m = make_match image (highlights search_terms image)
       ∧ NoDup (map bbox (matched_words m))
       ∧ (∀ wd, wd ∈ matched_words m →
            wd ∈ words_in_image image
            ∧ ∃ t, t ∈ search_terms ∧ is_fuzzy_match (text wd) t = true)
       ∧ (∀ wd t, wd ∈ words_in_image image → t ∈ search_terms →
            is_fuzzy_match (text wd) t = true →
            bbox wd ∈ map bbox (matched_words m)))
  ∧ (is_fuzzy_match "cat" "cat" = true ∧ is_fuzzy_match "cat" "cot" = true
     ∧ search OR ["cat"; "cot"] [pets] = [make_match pets [w_cat]]).
Proof.
  split; [|by vm_compute].
  intros search_type search_terms all_images m Hm.
  destruct (elem_of_search _ _ _ _ Hm) as (image & Hin & ->).
  destruct (highlights_spec search_terms image) as (Hnd & Hsub & Hbox).
  exists image. by split_and!.
Qed.

Lemma highlights_deduplicated_witness :
  ∃ image : Row,
    image ∈ [pets]
    ∧ make_match pets [w_cat] = make_match image (highlights ["cat"; "cot"] image)
    ∧ NoDup (map bbox (matched_words (make_match pets [w_cat]))).
Proof.
  destruct (proj1 highlights_deduplicated OR ["cat"; "cot"] [pets]
                  (make_match pets [w_cat]))
    as (image & H1 & H2 & H3 & _).
  - replace (search OR ["cat"; "cot"] [pets]) with [make_match pets [w_cat]]
      by (vm_compute; reflexivity).
    constructor.
  - exists image. auto.
Defined.

(** C6, as stated, fails on the empty query: the endpoint answers it with
    an error, not with an empty result. *)
Lemma empty_query_is_rejected :
  search_images (Some "") [pets] = BadRequest "No query provided"
  ∧ search_images (Some "") [pets] ≠ Found [].
Proof. split; [reflexivity|discriminate]. Qed.

(** C6, amended.  A query that is absent, or empty once lowercased and
    trimmed, is answered with the error "No query provided", whatever the
    table holds.  The parsing steps on the empty string give an empty term
    list, and the search on an empty term list gives an empty result as a
    plain value.  Every other query has at least one term and is answered
    with a result list. *)
Theorem empty_query_handling :
  (∀ (q : option string) (all_images : list Row),
     Py.strip (Py.lower (default "" q)) = "" →
     search_images q all_images = BadRequest "No query provided")
  ∧ (parse_terms "" = (OR, []))
  ∧ (∀ (search_type : SearchType) (all_images : list Row),
       search search_type [] all_images = [])
  ∧ (∀ (q : option string) (all_images : list Row),
       Py.strip (Py.lower (default "" q)) ≠ "" →
       (parse_terms (Py.strip (Py.lower (default "" q)))).2 ≠ []
       ∧ ∃ matches, search_images q all_images = Found matches).
Proof.
  split_and!.
  - intros q all_images Hq. unfold search_images. by rewrite Hq.
  - reflexivity.
  - reflexivity.
  - intros q all_images Hq.
    destruct (parse_terms (Py.strip (Py.lower (default "" q))))
      as [search_type terms] eqn:Hp.
    destruct (search_images_accepted q all_images _ _ Hq Hp) as [Hne ->].
    eauto.
Qed.

Lemma empty_query_handling_witness :
  search_images (Some "   ") [pets] = BadRequest "No query provided"
  ∧ search_images None [pets] = BadRequest "No query provided"
  ∧ ∃ matches, search_images (Some "zebra") [pets] = Found matches.
Proof.
  destruct empty_query_handling as (Hempty & _ & _ & Hother).
  split_and!.
  - apply Hempty. reflexivity.
  - apply Hempty. reflexivity.
  - apply (Hother (Some "zebra") [pets]). vm_compute. discriminate.
Defined.

(** C7.  A row whose [ocr_data_json] is absent or does not deserialize has
    no words: no term is found in it, it has no highlights, and the search
    over a table that holds it is the search over the table without it. *)
Theorem corrupt_record_resilience :
  ∀ image : Row,
    (∃ e, json_loads (ocr_data_json image) = inl e) →
    words_in_image image = []
    ∧ (∀ search_terms,
         (scan_image search_terms (words_in_image image)).1 = 0
         ∧ highlights search_terms image = [])
    ∧ (∀ search_type search_terms before after,
         search search_type search_terms (before ++ image :: after)
         = search search_type search_terms (before ++ after))
    ∧ (∀ q before after,
         search_images q (before ++ image :: after)
         = search_images q (before ++ after)).
Proof.
  intros image [e He].
  assert (Hw : words_in_image image = []).
  { unfold words_in_image. by rewrite He. }
  split_and!.
  - done.
  - intros search_terms. unfold highlights. by rewrite Hw, scan_image_nil.
  - intros. by apply search_skips.
  - intros q before after. unfold search_images.
    destruct (negb _); [done|]. destruct (parse_terms _) as [search_type terms].
    by rewrite search_skips.
Qed.

Lemma corrupt_record_resilience_witness :
  (∃ e, json_loads (ocr_data_json pending) = inl e)
  ∧ words_in_image pending = []
  ∧ search_images (Some "cat") ([stamp] ++ pending :: [pets])
    = search_images (Some "cat") ([stamp] ++ [pets]).
Proof.
  assert (H : ∃ e, json_loads (ocr_data_json pending) = inl e).
  { exists JSONDecodeError. reflexivity. }
  destruct (corrupt_record_resilience pending H) as (H1 & _ & _ & H4).
  split_and!; [done..|]. apply H4.
Defined.

(** C8, as stated, fails.  With the terms in the other order the
    highlights of an image come in another order, and where two words share
    a box it is another word that is kept. *)
Lemma term_order_changes_highlights :
  ["cat"; "dog"] ≡ₚ ["dog"; "cat"]
  ∧ search AND ["cat"; "dog"] [pets] = [make_match pets [w_cat; w_dog]]
  ∧ search AND ["dog"; "cat"] [pets] = [make_match pets [w_dog; w_cat]]
  ∧ search OR ["cat"; "dog"] [stamp] = [make_match stamp [r_cat]]
  ∧ search OR ["dog"; "cat"] [stamp] = [make_match stamp [r_dog]]
  ∧ search OR ["cat"; "dog"] [stamp] ≠ search OR ["dog"; "cat"] [stamp]
  ∧ search_images (Some "cat dog") [stamp]
    ≠ search_images (Some "dog cat") [stamp].
Proof.
  split_and!; try (by vm_compute).
  apply perm_swap.
Qed.

(** C8, amended.  For two lists of terms that are permutations of each
    other, a search returns entries for the same rows in the same order, and
    the highlights of corresponding entries cover the same set of boxes and
    have the same length.  When the boxes of the words of every image are
    pairwise distinct, corresponding highlights are permutations of each
    other.  The highlights of an entry are, for either list of terms, the
    matching words of its row in the order in which the scan reaches them,
    term by term in the order of the list and, for each term, word by word
    in the order of the row, a word being left out when a word reached
    before it has its box: the order of the highlights follows the order of
    the terms, and of the words that share a box the first one reached is
    kept. *)
Theorem term_order_invariance :
  ∀ (search_type : SearchType) (terms terms' : list string)
    (all_images : list Row),
    terms ≡ₚ terms' →
    Forall2 (λ m m',
               m_id m = m_id m'
               ∧ m_display_name m = m_display_name m'
               ∧ m_internal_filename m = m_internal_filename m'
               ∧ (∀ b, b ∈ map bbox (matched_words m)
                       ↔ b ∈ map bbox (matched_words m'))
               ∧ length (matched_words m) = length (matched_words m'))
            (search search_type terms all_images)
            (search search_type terms' all_images)
    ∧ ((∀ image, image ∈ all_images →
                 NoDup (map bbox (words_in_image image))) →
       Forall2 (λ m m', matched_words m ≡ₚ matched_words m')
               (search search_type terms all_images)
               (search search_type terms' all_images))
    ∧ Forall (λ m, ∃ image,
                image ∈ all_images
                ∧ m = make_match image
                        (first_by_box (hits terms (words_in_image image))))
             (search search_type terms all_images)
    ∧ Forall (λ m', ∃ image,
                image ∈ all_images
                ∧ m' = make_match image
                         (first_by_box (hits terms' (words_in_image image))))
             (search search_type terms' all_images).
Proof.
  intros search_type terms terms' all_images Hp.
  cut (∀ P Q R S : Prop, (P ∧ Q) → R → S → P ∧ Q ∧ R ∧ S); [|tauto].
  intros Hcut. apply Hcut; [|apply search_first_by_box..].
  destruct (decide (terms = [])) as [->|Hne].
  { apply Permutation_nil_l in Hp as <-. split; [constructor|]. constructor. }
  assert (Hne' : terms' ≠ []).
  { intros ->. by apply Permutation_nil_r in Hp. }
  rewrite !search_eq by done.
  rewrite (filter_ext _ _ (λ image, spec_included_perm search_type _ _ image Hp)).
  split.
  - apply Forall2_map_same. intros image _. simpl. split_and!; [done..| |].
    + intros b. by apply highlights_perm_boxes.
    + by apply highlights_perm_length.
  - intros Hdistinct. apply Forall2_map_same. intros image Hin. simpl.
    assert (Himg : image ∈ all_images).
    { apply list_elem_of_In in Hin. apply filter_In in Hin as [Hin _].
      by apply list_elem_of_In. }
    rewrite !highlights_distinct_boxes by auto.
    erewrite filter_ext; [done|].
    intros wd. simpl. by apply existsb_perm.
Qed.

Lemma term_order_invariance_witness :
  Forall2 (λ m m', matched_words m ≡ₚ matched_words m')
          (search AND ["cat"; "dog"] [pets; pending])
          (search AND ["dog"; "cat"] [pets; pending])
  ∧ Forall (λ m, ∃ image,
              image ∈ [pets; pending]
              ∧ m = make_match image
                      (first_by_box
                         (hits ["cat"; "dog"] (words_in_image image))))
           (search AND ["cat"; "dog"] [pets; pending]).
Proof.
  destruct (term_order_invariance AND ["cat"; "dog"] ["dog"; "cat"]
              [pets; pending]) as (_ & Hperm & Hfirst & _).
  - apply perm_swap.
  - split; [apply Hperm|exact Hfirst].
    intros image Hin.
    apply elem_of_cons in Hin as [->|Hin];
      [|apply elem_of_cons in Hin as [->|Hin]; [|by apply elem_of_nil in Hin]].
    + apply (bool_decide_unpack _). vm_compute. exact I.
    + apply (bool_decide_unpack _). vm_compute. exact I.
Defined.

(** * Further properties *)

(** ** File names *)

Section FileNames.

Import Py.

(** [c] occurs in [s]. *)
Lemma contains_char_nil c : contains (String c "") "" = false.
Proof. reflexivity. Qed.

Lemma contains_char_cons c a s :
  contains (String c "") (String a s)
  = Ascii.eqb c a || contains (String c "") s.
Proof.
  rewrite contains_cons, startswith_cons, startswith_empty.
  by destruct (Ascii.eqb c a).
Qed.

Lemma contains_char_app c s1 s2 :
  contains (String c "") (s1 +:+ s2)
  = contains (String c "") s1 || contains (String c "") s2.
Proof.
  induction s1 as [|a s1 IH].
  - by rewrite contains_char_nil.
  - change (String a s1 +:+ s2) with (String a (s1 +:+ s2)).
    by rewrite !contains_char_cons, IH, orb_assoc.
Qed.

Lemma rsplit1_cons c a s :
  rsplit1 c (String a s) =
  match rsplit1 c s with
  | [head; tail] => [String a head; tail]
  | _ => if Ascii.eqb a c then [""; s] else [String a s]
  end.
Proof. reflexivity. Qed.

(** The two shapes of [rsplit1 c s]. *)
Lemma rsplit1_shape c s :
  (contains (String c "") s = false ∧ rsplit1 c s = [s])
  ∨ (∃ head tail,
       contains (String c "") s = true
       ∧ rsplit1 c s = [head; tail]
       ∧ s = head +:+ String c tail
       ∧ contains (String c "") tail = false).
Proof.
  induction s as [|a s IH]; [by left|].
  rewrite rsplit1_cons, contains_char_cons.
  destruct IH as [[Hno ->]|(head & tail & Hyes & -> & -> & Htail)].
  - rewrite Hno, orb_false_r, (Ascii.eqb_sym c a).
    destruct (Ascii.eqb_spec a c) as [->|_]; [right|by left].
    by exists "", s.
  - right. exists (String a head), tail. by rewrite Hyes, orb_true_r.
Qed.

Lemma rsplit1_cut c head tail :
  contains (String c "") tail = false →
  rsplit1 c (head +:+ String c tail) = [head; tail].
Proof.
  intros Htail. induction head as [|a head IH].
  - change ("" +:+ String c tail) with (String c tail).
    rewrite rsplit1_cons.
    destruct (rsplit1_shape c tail) as [[_ ->]|(? & ? & E & _)];
      [by rewrite Ascii.eqb_refl | congruence].
  - change (String a head +:+ String c tail)
      with (String a (head +:+ String c tail)).
    by rewrite rsplit1_cons, IH.
Qed.

Lemma rsplit1_map_chars f c s :
  (∀ a, Ascii.eqb (f a) c = Ascii.eqb a c) →
  rsplit1 c (map_chars f s) = map (map_chars f) (rsplit1 c s).
Proof.
  intros Hf. induction s as [|a s IH]; [done|].
  change (map_chars f (String a s)) with (String (f a) (map_chars f s)).
  rewrite !rsplit1_cons, IH, Hf.
  destruct (rsplit1 c s) as [|h [|t [|? ?]]]; simpl; try by destruct (Ascii.eqb a c).
Qed.

Lemma contains_char_map_chars f c s :
  (∀ a, Ascii.eqb c (f a) = Ascii.eqb c a) →
  contains (String c "") (map_chars f s) = contains (String c "") s.
Proof.
  intros Hf. induction s as [|a s IH]; [done|].
  change (map_chars f (String a s)) with (String (f a) (map_chars f s)).
  by rewrite !contains_char_cons, IH, Hf.
Qed.

Lemma allowed_file_map_chars f filename :
  (∀ a, Ascii.eqb (f a) "." = Ascii.eqb a ".") →
  (∀ a, char_lower (f a) = char_lower a) →
  allowed_file (map_chars f filename) = allowed_file filename.
Proof.
  intros Hdot Hlow. unfold allowed_file.
  rewrite contains_char_map_chars
    by (intros a; by rewrite Ascii.eqb_sym, Hdot, Ascii.eqb_sym).
  destruct (contains "." filename); [|done].
  rewrite rsplit1_map_chars by done.
  destruct (rsplit1 "." filename) as [|h [|t l]]; simpl; [done..|].
  unfold lower. by rewrite (map_chars_compose _ _ char_lower).
Qed.

Lemma dot_char_lower a : Ascii.eqb (char_lower a) "." = Ascii.eqb a ".".
Proof. destruct a as [[] [] [] [] [] [] [] []]; reflexivity. Qed.

(** The answer of [allowed_file] on a name with a last extension. *)
Lemma allowed_file_cut stem extension :
  contains "." extension = false →
  allowed_file (stem +:+ String "." extension)
  = Some (bool_decide (lower extension ∈ ALLOWED_EXTENSIONS)).
Proof.
  intros Hext. unfold allowed_file.
  rewrite contains_char_app, contains_char_cons, Ascii.eqb_refl, orb_true_r.
  by rewrite rsplit1_cut.
Qed.

End FileNames.

(** X1.  [allowed_file] never fails on its subscript, and accepts exactly the
    names whose part after the last dot is, in small letters, one of the
    four extensions. *)
Theorem allowed_file_by_last_extension (filename : string) :
  ∃ answer : bool,
    allowed_file filename = Some answer
    ∧ (answer = true ↔
       ∃ stem extension,
         filename = stem +:+ "." +:+ extension
         ∧ Py.contains "." extension = false
         ∧ Py.lower extension ∈ ALLOWED_EXTENSIONS).
Proof.
  destruct (rsplit1_shape "." filename)
    as [[Hno Hs]|(head & tail & Hyes & Hs & -> & Htail)].
  - exists false. unfold allowed_file. rewrite Hno. split; [done|].
    split; [done|]. intros (stem & extension & -> & _ & _).
    change (stem +:+ "." +:+ extension)
      with (stem +:+ String "." extension) in Hno.
    rewrite contains_char_app, contains_char_cons in Hno.
    by rewrite orb_true_r in Hno.
  - exists (bool_decide (Py.lower tail ∈ ALLOWED_EXTENSIONS)).
    split; [by apply allowed_file_cut|].
    rewrite bool_decide_eq_true. split.
    + intros Hin. by exists head, tail.
    + intros (stem & extension & E & Hext & Hin).
      assert (Hcut : [head; tail] = [stem; extension]).
      { rewrite <-Hs, E. by apply (rsplit1_cut "." stem extension). }
      by injection Hcut as -> ->.
Qed.

(** X2.  Letter case plays no part in [allowed_file]: two names with the same
    lowercased form get the same answer. *)
Theorem allowed_file_ignores_case (filename filename' : string) :
  Py.lower filename = Py.lower filename' →
  allowed_file filename = allowed_file filename'.
Proof.
  intros E.
  rewrite <-(allowed_file_map_chars Py.char_lower filename),
          <-(allowed_file_map_chars Py.char_lower filename').
  - by fold (Py.lower filename); fold (Py.lower filename'); rewrite E.
  - apply dot_char_lower.
  - apply char_lower_idem.
  - apply dot_char_lower.
  - apply char_lower_idem.
Qed.

Lemma allowed_file_ignores_case_witness :
  allowed_file "Scan.JPEG" = allowed_file "SCAN.jpeg".
Proof. apply allowed_file_ignores_case. reflexivity. Defined.

(** ** The names of copies *)

Section Copies.

Import Py.

Lemma append_assoc (s1 s2 s3 : string) :
  (s1 +:+ s2) +:+ s3 = s1 +:+ (s2 +:+ s3).
Proof.
  induction s1 as [|a s1 IH]; [done|].
  change (String a ((s1 +:+ s2) +:+ s3) = String a (s1 +:+ (s2 +:+ s3))).
  by rewrite IH.
Qed.

Lemma length_append (s1 s2 : string) :
  String.length (s1 +:+ s2) = String.length s1 + String.length s2.
Proof.
  induction s1 as [|a s1 IH]; [done|].
  change (S (String.length (s1 +:+ s2)) = S (String.length s1 + String.length s2)).
  by rewrite IH.
Qed.

(** The decimal writing of a number has digits only, after the sign. *)
Lemma digits_only c d :
  contains (String c "") "0123456789" = false →
  contains (String c "") (NilEmpty.string_of_uint d) = false.
Proof.
  intros Hc. rewrite !contains_char_cons, contains_char_nil in Hc.
  repeat (apply orb_false_iff in Hc as [? Hc]).
  induction d as [|d IH|d IH|d IH|d IH|d IH|d IH|d IH|d IH|d IH|d IH];
    cbn [NilEmpty.string_of_uint]; rewrite ?contains_char_cons, ?IH;
    by rewrite ?orb_false_r.
Qed.

Lemma digits_only_zero c d :
  contains (String c "") "0123456789" = false →
  contains (String c "") (NilZero.string_of_uint d) = false.
Proof.
  intros Hc. destruct d; try by apply digits_only.
  change (contains (String c "") "0" = false).
  rewrite contains_char_cons in Hc. apply orb_false_iff in Hc as [Hc _].
  by rewrite contains_char_cons, Hc.
Qed.

Lemma str_int_chars c n :
  contains (String c "") "-0123456789" = false →
  contains (String c "") (str_int n) = false.
Proof.
  intros Hc. rewrite contains_char_cons in Hc.
  apply orb_false_iff in Hc as [Hminus Hc].
  unfold str_int. destruct (Z.to_int n) as [d|d]; cbn [NilZero.string_of_int].
  - by apply digits_only_zero.
  - by rewrite contains_char_cons, Hminus, digits_only_zero.
Qed.

Lemma to_int_proper n : Z.to_int n ≠ Decimal.Pos Decimal.Nil
                        ∧ Z.to_int n ≠ Decimal.Neg Decimal.Nil.
Proof.
  destruct n as [|p|p]; simpl; split; try done;
    intros [= E]; by apply (Unsigned.to_uint_nonnil p).
Qed.

Lemma str_int_inj n m : str_int n = str_int m → n = m.
Proof.
  unfold str_int. intros E.
  destruct (to_int_proper n) as [Hn1 Hn2], (to_int_proper m) as [Hm1 Hm2].
  pose proof (NilZero.isi _ Hn1 Hn2) as In.
  pose proof (NilZero.isi _ Hm1 Hm2) as Im.
  rewrite E, Im in In. injection In as In.
  by rewrite <-(DecimalZ.of_to n), <-(DecimalZ.of_to m), In.
Qed.

Lemma copy_filename_shape display_name new_id name :
  copy_filename display_name new_id = Some name ↔
  ∃ stem extension,
    display_name = stem +:+ String "." extension
    ∧ contains "." extension = false
    ∧ name = (stem +:+ String "_" (str_int new_id)) +:+ String "." extension.
Proof.
  unfold copy_filename.
  destruct (rsplit1_shape "." display_name)
    as [[Hno ->]|(stem & extension & Hyes & Hs & -> & Hext)].
  - simpl. split; [done|]. intros (stem & extension & -> & _ & _).
    by rewrite contains_char_app, contains_char_cons, orb_true_r in Hno.
  - rewrite Hs. simpl. split.
    + intros [= <-]. exists stem, extension. split_and!; [done..|].
      by rewrite !append_assoc.
    + intros (stem' & extension' & E & Hext' & ->).
      assert (Hcut : [stem; extension] = [stem'; extension']).
      { rewrite <-Hs, E. by apply rsplit1_cut. }
      injection Hcut as <- <-. by rewrite !append_assoc.
Qed.

End Copies.

(** X3.  A copy of a file with an extension gets an internal name with the same
    extension, hence one that [allowed_file] treats like the original, and
    a name other than the original's. *)
Theorem copy_filename_keeps_extension (display_name : string) (new_id : Z) :
  Py.contains "." display_name = true →
  ∃ name,
    copy_filename display_name new_id = Some name
    ∧ Py.rsplit1 "." name !! 1 = Py.rsplit1 "." display_name !! 1
    ∧ allowed_file name = allowed_file display_name
    ∧ name ≠ display_name.
Proof.
  intros Hdot.
  destruct (rsplit1_shape "." display_name)
    as [[Hno _]|(stem & extension & _ & Hs & -> & Hext)]; [congruence|].
  exists ((stem +:+ String "_" (Py.str_int new_id)) +:+ String "." extension).
  split_and!.
  - apply copy_filename_shape. by exists stem, extension.
  - by rewrite Hs, rsplit1_cut.
  - by rewrite !allowed_file_cut.
  - intros E. apply (f_equal String.length) in E.
    rewrite !length_append in E. simpl in E. lia.
Qed.

Lemma copy_filename_keeps_extension_witness :
  ∃ name,
    copy_filename "my.photo.JPG" 12 = Some name
    ∧ allowed_file name = allowed_file "my.photo.JPG".
Proof.
  destruct (copy_filename_keeps_extension "my.photo.JPG" 12)
    as (name & H1 & _ & H3 & _); [reflexivity|].
  by exists name.
Defined.

(** X4.  Two copies share an internal name only if they are copies of the same
    display name under the same id. *)
Theorem copy_filename_injective
    (display_name display_name' : string) (new_id new_id' : Z) (name : string) :
  copy_filename display_name new_id = Some name →
  copy_filename display_name' new_id' = Some name →
  display_name = display_name' ∧ new_id = new_id'.
Proof.
  intros (stem & ext & -> & Hext & ->)%copy_filename_shape
         (stem' & ext' & -> & Hext' & E)%copy_filename_shape.
  assert (Hcut : [stem +:+ String "_" (Py.str_int new_id); ext]
                 = [stem' +:+ String "_" (Py.str_int new_id'); ext']).
  { rewrite <-(rsplit1_cut "." _ ext Hext), E. by apply rsplit1_cut. }
  injection Hcut as Hstem <-.
  assert (Hno : ∀ n, Py.contains "_" (Py.str_int n) = false).
  { intros n. by apply str_int_chars. }
  assert (Hcut : [stem; Py.str_int new_id] = [stem'; Py.str_int new_id']).
  { rewrite <-(rsplit1_cut "_" stem _ (Hno new_id)), Hstem.
    by apply rsplit1_cut. }
  injection Hcut as <- Hid. split; [done|]. by apply str_int_inj.
Qed.

Lemma copy_filename_injective_witness :
  "a.png" = "a.png" ∧ 7%Z = 7%Z.
Proof.
  apply (copy_filename_injective "a.png" "a.png" 7 7 "a_7.png"); reflexivity.
Defined.

(** ** Blocks of a string *)

Section Blocks.

Import Py.

Lemma contains_intro pre t post : contains t (pre +:+ t +:+ post) = true.
Proof. apply contains_spec. eauto. Qed.

Lemma append_nil_r s : s +:+ "" = s.
Proof.
  induction s as [|a s IH]; [done|].
  change (String a (s +:+ "") = String a s). by rewrite IH.
Qed.

Lemma contains_refl s : contains s s = true.
Proof.
  apply contains_spec. exists "", "".
  change (s = s +:+ ""). by rewrite append_nil_r.
Qed.

Lemma contains_trans a b c :
  contains a b = true → contains b c = true → contains a c = true.
Proof.
  intros (p1 & q1 & ->)%contains_spec (p2 & q2 & ->)%contains_spec.
  apply contains_spec. exists (p2 +:+ p1), (q1 +:+ q2).
  by rewrite !append_assoc.
Qed.

Lemma map_chars_app f s1 s2 :
  map_chars f (s1 +:+ s2) = map_chars f s1 +:+ map_chars f s2.
Proof.
  induction s1 as [|a s1 IH]; [done|].
  change (String (f a) (map_chars f (s1 +:+ s2))
          = String (f a) (map_chars f s1 +:+ map_chars f s2)).
  by rewrite IH.
Qed.

Lemma contains_map_chars f t s :
  contains t s = true → contains (map_chars f t) (map_chars f s) = true.
Proof.
  intros (pre & post & ->)%contains_spec.
  rewrite !map_chars_app. apply contains_intro.
Qed.

Lemma lstrip_suffix s : ∃ pre, s = pre +:+ lstrip s.
Proof.
  induction s as [|a s [pre IH]]; [by exists ""|]. simpl.
  destruct (isspace a); [|by exists ""].
  exists (String a pre).
  change (String a s = String a (pre +:+ lstrip s)). by rewrite <-IH.
Qed.

Lemma rstrip_prefix s : ∃ post, s = rstrip s +:+ post.
Proof.
  induction s as [|a s [post IH]]; [by exists ""|]. simpl.
  destruct (rstrip s) as [|b r] eqn:E.
  - destruct (isspace a); [by exists (String a s)|].
    exists s. done.
  - exists post. change (String a s = String a (String b r +:+ post)).
    by rewrite <-IH.
Qed.

Lemma contains_strip s : contains (strip s) s = true.
Proof.
  unfold strip.
  destruct (lstrip_suffix s) as [pre Hpre].
  destruct (rstrip_prefix (lstrip s)) as [post Hpost].
  apply contains_spec. exists pre, post. by rewrite <-Hpost.
Qed.

Lemma lstrip_fixed s :
  match s with "" => True | String a _ => isspace a = false end →
  lstrip s = s.
Proof. destruct s as [|a s]; [done|]. simpl. by intros ->. Qed.

Lemma rstrip_idem s : rstrip (rstrip s) = rstrip s.
Proof.
  induction s as [|a s IH]; [done|]. simpl.
  destruct (rstrip s) as [|b r] eqn:E.
  - destruct (isspace a) eqn:Ha; [done|]. simpl. by rewrite Ha.
  - change (rstrip (String a (String b r)) = String a (String b r)).
    cbn [rstrip] in IH |- *. by rewrite IH.
Qed.

Lemma strip_idem s : strip (strip s) = strip s.
Proof.
  unfold strip at 1. rewrite lstrip_fixed.
  - unfold strip. apply rstrip_idem.
  - destruct (strip s) as [|a r] eqn:E; [done|]. by apply strip_head in E.
Qed.

(** The first piece of a split is the start of the string, and every piece
    is a block of it. *)
Lemma split_head_prefix sep s piece rest :
  split_from sep s 0 = piece :: rest → startswith piece s = true.
Proof.
  revert piece rest. induction s as [|a s IH]; intros piece rest.
  - by intros [= <- _].
  - rewrite split_from_here. destruct (startswith sep (String a s)).
    + by intros [= <- _].
    + destruct (split_from_cons sep s 0) as (p & r & Hs). rewrite Hs.
      intros [= <- _]. rewrite startswith_cons, Ascii.eqb_refl. by eapply IH.
Qed.

Lemma contains_later t a s : contains t s = true → contains t (String a s) = true.
Proof. intros H. by rewrite contains_cons, H, orb_true_r. Qed.

Lemma contains_split_piece sep s k piece :
  piece ∈ split_from sep s k → contains piece s = true.
Proof.
  revert k. induction s as [|a s IH]; intros k.
  - simpl. by intros ->%list_elem_of_singleton.
  - destruct k as [|k].
    + rewrite split_from_here. destruct (startswith sep (String a s)).
      * intros [->|Hin]%elem_of_cons; [apply contains_empty|].
        by eapply contains_later, IH.
      * destruct (split_from_cons sep s 0) as (p & r & Hs). rewrite Hs.
        intros [->|Hin]%elem_of_cons.
        -- rewrite contains_cons, startswith_cons, Ascii.eqb_refl.
           by rewrite (split_head_prefix _ _ _ _ Hs).
        -- apply contains_later, (IH 0). rewrite Hs. by right.
    + rewrite split_from_skip. intros Hin. by eapply contains_later, IH.
Qed.

Lemma split_no_delimiter sep s :
  contains sep s = false → split s sep = [s].
Proof.
  unfold split. induction s as [|a s IH]; [done|].
  rewrite contains_cons, split_from_here.
  intros [-> Hs]%orb_false_iff. by rewrite IH.
Qed.

Lemma lower_concat sep l :
  lower (String.concat sep l) = String.concat (lower sep) (map lower l).
Proof.
  induction l as [|h l IH]; [done|].
  destruct l as [|h' l]; [done|].
  cbn [map] in IH |- *. rewrite !concat_cons_cons, <-IH.
  unfold lower. by rewrite !map_chars_app.
Qed.

Lemma contains_concat sep l t :
  t ∈ l → contains t (String.concat sep l) = true.
Proof.
  induction l as [|h l IH]; [by intros ?%elem_of_nil|].
  destruct l as [|h' l].
  - intros ->%list_elem_of_singleton. apply contains_refl.
  - rewrite concat_cons_cons. intros [->|Hin]%elem_of_cons.
    + apply (contains_intro "").
    + eapply contains_trans; [by apply IH|].
      apply contains_spec. exists (h +:+ sep), "".
      by rewrite !append_assoc, append_nil_r.
Qed.

End Blocks.

(** ** The recognised words *)

(** X6.  The stored [full_text] is the stored texts joined by single spaces, so
    that the text of every stored word occurs in it. *)
Theorem full_text_joins_words (w : World)
    (ocr_results : list (OcrResult (number w))) :
  full_text_of ocr_results
  = Py.join " " (map text (words_data_of w ocr_results))
  ∧ ∀ wd, wd ∈ words_data_of w ocr_results →
          Py.contains (text wd) (full_text_of ocr_results) = true.
Proof.
  assert (E : full_text_of ocr_results
              = Py.join " " (map text (words_data_of w ocr_results))).
  { unfold full_text_of, Py.join, words_data_of.
    by rewrite lower_concat, !map_map. }
  split; [done|]. intros wd Hwd. rewrite E. apply contains_concat.
  apply list_elem_of_In, in_map. by apply list_elem_of_In.
Qed.

(** ** More on the matcher *)

Section Tolerance.

Import Py Levenshtein.

Lemma script_lengths a b n :
  script a b n →
  String.length a ≤ String.length b + n ∧ String.length b ≤ String.length a + n.
Proof. induction 1; simpl; lia. Qed.

Lemma distance_lengths a b :
  String.length a ≤ String.length b + distance a b
  ∧ String.length b ≤ String.length a + distance a b.
Proof. apply script_lengths, distance_script. Qed.

Lemma contains_length t s : contains t s = true → String.length t ≤ String.length s.
Proof.
  intros (pre & post & ->)%contains_spec. rewrite !length_append. lia.
Qed.

End Tolerance.

(** X7.  One wrong, missing or extra character is always forgiven: a word at
    distance at most 1 from the term matches, whatever the term's length. *)
Theorem one_edit_always_matches (w t : string) :
  Levenshtein.distance (Py.lower w) (Py.lower t) ≤ 1 →
  is_fuzzy_match w t = true.
Proof.
  intros Hd. unfold is_fuzzy_match.
  destruct (Py.contains _ _); [done|].
  destruct (Nat.leb_spec (Levenshtein.distance (Py.lower w) (Py.lower t)) 1);
    [|lia].
  destruct (Nat.leb_spec (Levenshtein.distance (Py.lower w) (Py.lower t)) 2);
    [|lia].
  destruct (Nat.leb_spec (Levenshtein.distance (Py.lower w) (Py.lower t)) 3);
    [|lia].
  rewrite !andb_true_r.
  destruct (Nat.leb_spec (Py.len (Py.lower t)) 5); [done|].
  destruct (Nat.ltb_spec 5 (Py.len (Py.lower t))); [|lia].
  destruct (Nat.ltb_spec (Py.len (Py.lower t)) 10); [done|].
  destruct (Nat.leb_spec 10 (Py.len (Py.lower t))); [done|lia].
Qed.

Lemma one_edit_always_matches_witness :
  is_fuzzy_match "1nvoice" "Invoice" = true.
Proof. apply one_edit_always_matches. vm_compute. lia. Defined.

(** X8.  A word never matches a term that is more than three characters longer,
    and a match that is not by containment is at distance at most 3. *)
Theorem match_is_bounded (w t : string) :
  (Py.len w + 3 < Py.len t → is_fuzzy_match w t = false)
  ∧ (is_fuzzy_match w t = true →
     Py.contains (Py.lower t) (Py.lower w) = true
     ∨ Levenshtein.distance (Py.lower w) (Py.lower t) ≤ 3).
Proof.
  assert (Hbound : is_fuzzy_match w t = true →
            Py.contains (Py.lower t) (Py.lower w) = true
            ∨ Levenshtein.distance (Py.lower w) (Py.lower t) ≤ 3).
  { destruct (Py.contains (Py.lower t) (Py.lower w)) eqn:Hc; [by left|].
    intros Hm. right. apply (is_fuzzy_match_distance _ _ Hc) in Hm.
    unfold within_threshold in Hm. lia. }
  split; [|done]. intros Hlen.
  destruct (is_fuzzy_match w t) eqn:Hm; [|done]. exfalso.
  unfold Py.len in Hlen.
  rewrite <-(length_map_chars Py.char_lower w),
          <-(length_map_chars Py.char_lower t) in Hlen.
  destruct (Hbound eq_refl) as [Hc|Hd].
  - apply contains_length in Hc. unfold Py.lower in Hc. lia.
  - pose proof (distance_lengths (Py.lower w) (Py.lower t)) as [_ H].
    unfold Py.lower in *. lia.
Qed.

Lemma match_is_bounded_witness : is_fuzzy_match "cat" "catalog" = false.
Proof. apply (proj1 (match_is_bounded "cat" "catalog")). vm_compute. lia. Defined.

(** ** More on the parser *)

Section Terms.

Import Py.

Lemma terms_of_pieces_normal pieces whole t :
  (∀ piece, piece ∈ pieces → contains piece whole = true) →
  t ∈ map lower (List.filter truthy (map strip pieces)) →
  t ≠ "" ∧ lower t = t ∧ strip t = t ∧ contains t (lower whole) = true.
Proof.
  intros Hpieces Ht.
  apply list_elem_of_In, in_map_iff in Ht as (u & <- & Hu).
  apply filter_In in Hu as [Hu Htruthy].
  apply in_map_iff in Hu as (piece & <- & Hpiece).
  apply list_elem_of_In in Hpiece. split_and!.
  - apply truthy_true. by rewrite truthy_lower.
  - apply lower_idem.
  - by rewrite strip_lower, strip_idem.
  - apply contains_map_chars.
    eapply contains_trans; [apply contains_strip|by apply Hpieces].
Qed.

Lemma parse_terms_normal query t :
  t ∈ (parse_terms query).2 →
  t ≠ "" ∧ lower t = t ∧ strip t = t ∧ contains t (lower query) = true.
Proof.
  unfold parse_terms.
  destruct (contains " AND " _); [|destruct (contains " OR " _)]; simpl snd;
    intros Ht.
  - rewrite <-(lower_upper query).
    apply (terms_of_pieces_normal _ _ _ (λ p, contains_split_piece _ _ 0 p) Ht).
  - rewrite <-(lower_upper query).
    apply (terms_of_pieces_normal _ _ _ (λ p, contains_split_piece _ _ 0 p) Ht).
  - apply (terms_of_pieces_normal _ _ _ (λ p, contains_split_piece _ _ 0 p) Ht).
Qed.

Lemma space_char_upper a : Ascii.eqb " " (char_upper a) = Ascii.eqb " " a.
Proof. destruct a as [[] [] [] [] [] [] [] []]; reflexivity. Qed.

End Terms.

(** X9.  Every term of a parsed query is non-empty, in small letters and without
    white space at its ends.  When the query is made of ASCII characters,
    the term is a block of the lowercased query; for other queries this
    fails in Python, where [upper] followed by [lower] need not give the
    lowercased query back. *)
Theorem parsed_terms_are_normal (q t : string) :
  t ∈ (parse_terms (Py.strip (Py.lower q))).2 →
  t ≠ "" ∧ Py.lower t = t ∧ Py.strip t = t
  ∧ (is_ascii q = true → Py.contains t (Py.lower q) = true).
Proof.
  intros (H1 & H2 & H3 & H4)%parse_terms_normal. split_and!; [done..|].
  intros _. eapply contains_trans; [exact H4|].
  rewrite <-strip_lower, lower_idem. apply contains_strip.
Qed.

Lemma parsed_terms_are_normal_witness :
  "dog" ≠ "" ∧ Py.lower "dog" = "dog" ∧ Py.strip "dog" = "dog"
  ∧ Py.contains "dog" (Py.lower "  Cat OR  DOG ") = true.
Proof.
  destruct (parsed_terms_are_normal "  Cat OR  DOG " "dog")
    as (H1 & H2 & H3 & H4).
  - vm_compute. right. left.
  - split_and!; [done..|]. apply H4. reflexivity.
Defined.

(** X10.  A query of one word, that is without a space once trimmed, is one term,
    the word itself, whatever letters it has: "sand" and "order" are not
    cut at their "and" and "or". *)
Theorem one_word_query (q : string) :
  let query := Py.strip (Py.lower q) in
  query ≠ "" → Py.contains " " query = false →
  parse_terms query = (OR, [query]).
Proof.
  intros query Hne Hsp.
  assert (Hup : Py.contains " " (Py.upper query) = false).
  { unfold Py.upper. rewrite contains_char_map_chars; [done|].
    apply space_char_upper. }
  assert (Hno : ∀ sep, Py.contains " " sep = true →
                  Py.contains sep (Py.upper query) = false).
  { intros sep Hsep. destruct (Py.contains sep _) eqn:E; [|done].
    by rewrite (contains_trans _ _ _ Hsep E) in Hup. }
  unfold parse_terms. rewrite !Hno by reflexivity.
  rewrite split_no_delimiter by done. simpl map.
  assert (Hs : Py.strip query = query) by apply strip_idem.
  assert (Hl : Py.lower query = query).
  { unfold query. by rewrite <-strip_lower, lower_idem. }
  rewrite Hs. destruct query; [done|]. simpl. by rewrite <-Hl at 2.
Qed.

Lemma one_word_query_witness :
  parse_terms (Py.strip (Py.lower " Sand ")) = (OR, ["sand"]).
Proof. apply (one_word_query " Sand "); vm_compute; done. Defined.

(** ** More on the search *)

Section MoreSearch.

Lemma sublist_map_filter {A B} (f : A → B) (P Q : A → bool) l :
  (∀ x, P x = true → Q x = true) →
  sublist (map f (List.filter P l)) (map f (List.filter Q l)).
Proof.
  intros HPQ. induction l as [|x l IH]; simpl; [constructor|].
  destruct (P x) eqn:HP.
  - rewrite (HPQ x HP). simpl. by constructor.
  - destruct (Q x); simpl; [by constructor|done].
Qed.

Lemma sublist_map_filter_all {A B} (f : A → B) (P : A → bool) l :
  sublist (map f (List.filter P l)) (map f l).
Proof.
  induction l as [|x l IH]; simpl; [constructor|].
  destruct (P x); simpl; by constructor.
Qed.

Lemma push_idle hl wd : bbox wd ∈ hl.2 → push hl wd = hl.
Proof. intros Hin. unfold push. by destruct (decide _). Qed.

Lemma fold_push_idle cands hl :
  (∀ wd, wd ∈ cands → bbox wd ∈ hl.2) → fold_left push cands hl = hl.
Proof.
  induction cands as [|wd cands IH]; intros H; simpl; [done|].
  rewrite push_idle by (apply H; by left).
  apply IH. intros wd' Hwd'. apply H. by right.
Qed.

Lemma hits_app ts1 ts2 words :
  hits (ts1 ++ ts2) words = (hits ts1 words ++ hits ts2 words)%list.
Proof. unfold hits. apply flat_map_app. Qed.

Lemma hits_cons t ts words :
  hits (t :: ts) words
  = (List.filter (matches_term t) words ++ hits ts words)%list.
Proof. reflexivity. Qed.

Lemma highlights_eq terms image :
  highlights terms image
  = (fold_left push (hits terms (words_in_image image)) ([], ∅)).1.
Proof. unfold highlights. by rewrite scan_image_eq. Qed.

Lemma included_has_match search_type terms image :
  terms ≠ [] → spec_included search_type terms image = true →
  ∃ t wd, t ∈ terms ∧ wd ∈ words_in_image image
          ∧ is_fuzzy_match (text wd) t = true.
Proof.
  intros Hne Hinc. destruct search_type; simpl in Hinc.
  - destruct terms as [|t terms]; [done|]. simpl in Hinc.
    apply andb_true_iff in Hinc as [Ht _].
    apply spec_term_found_iff in Ht as (wd & Hwd & Hm).
    exists t, wd. split_and!; [by left|done..].
  - apply existsb_exists in Hinc as (t & Ht & Hfound).
    apply spec_term_found_iff in Hfound as (wd & Hwd & Hm).
    exists t, wd. by rewrite list_elem_of_In.
Qed.

Lemma elem_of_search_included search_type terms images image :
  terms ≠ [] → image ∈ images →
  spec_included search_type terms image = true →
  make_match image (highlights terms image) ∈ search search_type terms images.
Proof.
  intros Hne Hin Hinc. rewrite search_eq by done.
  apply list_elem_of_In, in_map_iff. exists image. split; [done|].
  apply filter_In. by rewrite <-list_elem_of_In.
Qed.

End MoreSearch.

Lemma found_by_block
    (q : option string) (all_images : list Row) (image : Row) (wd : WordData) :
  image ∈ all_images → wd ∈ words_in_image image →
  Py.strip (Py.lower (default "" q)) ≠ "" →
  Py.contains (Py.strip (Py.lower (default "" q))) (Py.lower (text wd)) = true →
  ∃ matches m,
    search_images q all_images = Found matches
    ∧ m ∈ matches
    ∧ m_id m = id image
    ∧ bbox wd ∈ map bbox (matched_words m).
Proof.
  intros Himg Hwd Hq Hc.
  destruct (parse_terms (Py.strip (Py.lower (default "" q))))
    as [search_type terms] eqn:Hp.
  destruct (search_images_accepted q all_images _ _ Hq Hp) as [Hne ->].
  assert (Hall : ∀ t, t ∈ terms → is_fuzzy_match (text wd) t = true).
  { intros t Ht. apply is_fuzzy_match_substring.
    assert (Hin : t ∈ (parse_terms (Py.strip (Py.lower (default "" q)))).2)
      by (by rewrite Hp).
    apply parse_terms_normal in Hin as (_ & -> & _ & Hblock).
    rewrite <-strip_lower, lower_idem in Hblock.
    by eapply contains_trans. }
  assert (Hfound : ∀ t, t ∈ terms →
            spec_term_found (words_in_image image) t = true).
  { intros t Ht. apply spec_term_found_iff. exists wd. auto. }
  assert (Hinc : spec_included search_type terms image = true).
  { destruct search_type; simpl.
    - apply forallb_forall. intros t Ht. by apply Hfound, list_elem_of_In.
    - destruct terms as [|t terms]; [done|]. simpl.
      rewrite Hfound; [done|by left]. }
  exists (search search_type terms all_images),
         (make_match image (highlights terms image)).
  split_and!; [done|by apply elem_of_search_included|done|].
  destruct terms as [|t terms]; [done|].
  destruct (highlights_spec (t :: terms) image) as (_ & _ & Hbox).
  apply (Hbox wd t); [done|by left|]. apply Hall. by left.
Qed.

(** X11.  A query that, lowercased and trimmed, occurs inside a word of an image
    finds that image, with AND as with OR, and the box of that word is
    among its highlights. *)
Theorem query_within_word_finds_image
    (q : option string) (all_images : list Row) (image : Row) (wd : WordData) :
  image ∈ all_images → wd ∈ words_in_image image →
  Py.strip (Py.lower (default "" q)) ≠ "" →
  Py.contains (Py.strip (Py.lower (default "" q))) (Py.lower (text wd)) = true →
  ∃ matches m,
    search_images q all_images = Found matches
    ∧ m ∈ matches
    ∧ m_id m = id image
    ∧ bbox wd ∈ map bbox (matched_words m).
Proof. apply found_by_block. Qed.

Lemma query_within_word_finds_image_witness :
  ∃ matches m,
    search_images (Some "  Do ") [stamp; pets] = Found matches
    ∧ m ∈ matches ∧ m_id m = id pets
    ∧ bbox w_dog ∈ map bbox (matched_words m).
Proof.
  apply (query_within_word_finds_image (Some "  Do ") [stamp; pets]
           pets w_dog).
  - right. left.
  - left.
  - vm_compute. discriminate.
  - vm_compute. reflexivity.
Defined.

(** X12.  The rows are searched one by one: the search over two tables put end to
    end is the two searches put end to end. *)
Theorem search_by_parts (search_type : SearchType) (search_terms : list string)
    (images1 images2 : list Row) :
  search search_type search_terms (images1 ++ images2)
  = (search search_type search_terms images1
     ++ search search_type search_terms images2)%list.
Proof.
  destruct (decide (search_terms = [])) as [->|Hne]; [done|].
  by rewrite !search_eq, List.filter_app, map_app.
Qed.

(** X13.  A result follows the table: its entries carry the id and the names of
    rows of the table, in the order of the table and at most once per row;
    so ids that are distinct in the table are distinct in the result. *)
Theorem results_follow_table (search_type : SearchType)
    (search_terms : list string) (all_images : list Row) :
  sublist
    (map (λ m, (m_id m, m_display_name m, m_internal_filename m))
         (search search_type search_terms all_images))
    (map (λ image, (id image, display_name image, internal_filename image))
         all_images)
  ∧ (NoDup (map id all_images) →
     NoDup (map m_id (search search_type search_terms all_images))).
Proof.
  destruct (decide (search_terms = [])) as [->|Hne].
  { split; [apply sublist_nil_l|]. intros _. constructor. }
  rewrite search_eq by done. rewrite !map_map. simpl. split.
  - apply sublist_map_filter_all.
  - intros Hnd. eapply sublist_NoDup; [exact Hnd|].
    apply sublist_map_filter_all.
Qed.

Lemma results_follow_table_witness :
  NoDup (map m_id (search OR ["cat"; "dog"] [pets; stamp; pending])).
Proof.
  apply (results_follow_table OR ["cat"; "dog"] [pets; stamp; pending]).
  apply (bool_decide_unpack _). vm_compute. exact I.
Defined.

(** X14.  Every entry of a result has at least one highlight. *)
Theorem results_have_highlights (search_type : SearchType)
    (search_terms : list string) (all_images : list Row) (m : Match) :
  m ∈ search search_type search_terms all_images → matched_words m ≠ [].
Proof.
  destruct (decide (search_terms = [])) as [->|Hne];
    [by intros ?%elem_of_nil|].
  rewrite search_eq by done.
  intros (image & <- & Hin)%list_elem_of_In%in_map_iff.
  apply filter_In in Hin as [_ Hinc].
  destruct (included_has_match _ _ _ Hne Hinc) as (t & wd & Ht & Hwd & Hm).
  destruct (highlights_spec search_terms image) as (_ & _ & Hbox).
  specialize (Hbox wd t Hwd Ht Hm). simpl. intros E. rewrite E in Hbox.
  by apply elem_of_nil in Hbox.
Qed.

Lemma results_have_highlights_witness :
  matched_words (make_match pets [w_cat]) ≠ [].
Proof.
  apply (results_have_highlights OR ["cat"; "cot"] [pets]).
  replace (search OR ["cat"; "cot"] [pets]) with [make_match pets [w_cat]]
    by (vm_compute; reflexivity).
  constructor.
Defined.

(** X15.  With the same terms, what AND finds is among what OR finds, with the
    same highlights. *)
Theorem and_within_or (search_terms : list string) (all_images : list Row) :
  sublist (search AND search_terms all_images)
          (search OR search_terms all_images).
Proof.
  destruct (decide (search_terms = [])) as [->|Hne]; [constructor|].
  rewrite !search_eq by done. apply sublist_map_filter.
  intros image Hall. simpl in *.
  destruct search_terms as [|t terms]; [done|]. simpl in *.
  apply andb_true_iff in Hall as [-> _]. done.
Qed.

(** X16.  More terms narrow an AND search and widen an OR search: the images
    found move within those found before, or the other way round. *)
Theorem more_terms (terms more : list string) (all_images : list Row) :
  terms ≠ [] →
  sublist (map m_id (search AND (terms ++ more) all_images))
          (map m_id (search AND terms all_images))
  ∧ sublist (map m_id (search OR terms all_images))
            (map m_id (search OR (terms ++ more) all_images)).
Proof.
  intros Hne.
  assert (Hne' : (terms ++ more)%list ≠ []) by (by destruct terms).
  rewrite !search_eq, !map_map by done. simpl.
  split; apply sublist_map_filter; intros image; simpl.
  - rewrite forallb_app. by intros [-> _]%andb_true_iff.
  - rewrite existsb_app. by intros ->.
Qed.

Lemma more_terms_witness :
  sublist (map m_id (search AND (["cat"] ++ ["zebra"]) [pets; stamp]))
          (map m_id (search AND ["cat"] [pets; stamp])).
Proof. by apply (more_terms ["cat"] ["zebra"] [pets; stamp]). Defined.

(** X17.  A term that comes again later in the list changes nothing: neither the
    images found nor their highlights. *)
Theorem repeated_term_is_idle (search_type : SearchType)
    (before : list string) (t : string) (between after : list string)
    (all_images : list Row) :
  search search_type (before ++ t :: between ++ t :: after) all_images
  = search search_type (before ++ t :: between ++ after) all_images.
Proof.
  rewrite !search_eq by (by destruct before).
  assert (Hinc : ∀ image,
            spec_included search_type (before ++ t :: between ++ t :: after) image
            = spec_included search_type (before ++ t :: between ++ after) image).
  { intros image. destruct search_type; simpl.
    - rewrite !forallb_app. simpl. rewrite !forallb_app. simpl.
      by destruct (spec_term_found _ t), (forallb _ before), (forallb _ between).
    - rewrite !existsb_app. simpl. rewrite !existsb_app. simpl.
      by destruct (spec_term_found _ t), (existsb _ before), (existsb _ between). }
  rewrite (filter_ext _ _ Hinc). apply map_ext. intros image. f_equal.
  rewrite !highlights_eq. f_equal.
  rewrite !hits_app, !hits_cons, !hits_app, !hits_cons, !fold_left_app.
  f_equal. apply fold_push_idle. intros wd Hwd.
  rewrite <-!fold_left_app. apply fold_push_boxes. right.
  rewrite !map_app. rewrite !elem_of_app. right. left.
  apply elem_of_map_bbox. eauto.
Qed.

(** ** The table *)

Section Table.

Lemma largest_id_bound rows row :
  row ∈ rows → (id row ≤ largest_id rows)%Z.
Proof.
  unfold largest_id. induction rows as [|r rows IH]; [by intros ?%elem_of_nil|].
  intros [->|H]%elem_of_cons; simpl; [lia|]. specialize (IH H). lia.
Qed.

Lemma largest_id_nonneg rows : (0 ≤ largest_id rows)%Z.
Proof.
  unfold largest_id. induction rows as [|r rows IH]; simpl; lia.
Qed.

Lemma sql_insert_ok w display internal text ocr db new_id db' :
  sql_insert w display internal text ocr db = inr (new_id, db') →
  images db' = (images db ++
                [{| id := new_id; display_name := display;
                    internal_filename := internal; full_text := text;
                    ocr_data_json := ocr |}])%list
  ∧ sequence db' = new_id
  ∧ (sequence db < new_id)%Z
  ∧ (∀ row, row ∈ images db → (id row < new_id)%Z)
  ∧ (internal ∉ map internal_filename (images db))
  ∧ is_sqlite_integer new_id = true.
Proof.
  unfold sql_insert.
  match goal with
  | |- context [(max_rowid <? ?n)%Z] =>
      destruct (Z.ltb_spec max_rowid n) as [|Hmax]; [done|]
  end.
  case_bool_decide as Hin; [done|].
  pose proof (largest_id_nonneg (images db)) as Hpos.
  intros [= <- <-]. simpl. split_and!; [done|done|lia| |done|].
  - intros row Hrow%largest_id_bound. lia.
  - unfold is_sqlite_integer. apply andb_true_iff.
    split; apply Z.leb_le; [unfold max_rowid in *|]; lia.
Qed.

Lemma sql_insert_failed w display internal text ocr db e :
  sql_insert w display internal text ocr db = inl e →
  (e = OperationalError (database_full w))
  ∨ (e = IntegrityError (unique_failed w)
     ∧ internal ∈ map internal_filename (images db)).
Proof.
  unfold sql_insert. destruct (_ <? _)%Z; [intros [= <-]; by left|].
  case_bool_decide; [intros [= <-]; by right|done].
Qed.

Lemma filter_other_ids rows n :
  (∀ row, row ∈ rows → id row ≠ n) →
  List.filter (λ row, negb (id row =? n)%Z) rows = rows.
Proof.
  induction rows as [|r rows IH]; intros H; simpl; [done|].
  destruct (Z.eqb_spec (id r) n) as [E|_].
  - destruct (H r); [by left|done].
  - simpl. f_equal. apply IH. intros row Hrow. apply H. by right.
Qed.

Lemma sql_delete_last rows row s :
  (∀ r, r ∈ rows → (id r < id row)%Z) →
  sql_delete (id row) {| images := (rows ++ [row])%list; sequence := s |}
  = {| images := rows; sequence := s |}.
Proof.
  intros H. unfold sql_delete. simpl. f_equal.
  rewrite List.filter_app. simpl. rewrite Z.eqb_refl. simpl.
  rewrite app_nil_r. apply filter_other_ids.
  intros r Hr. specialize (H r Hr). lia.
Qed.

Lemma sql_update_last w rows row s internal text ocr db2 :
  (∀ r, r ∈ rows → (id r < id row)%Z) →
  sql_update w (id row) internal text ocr
             {| images := (rows ++ [row])%list; sequence := s |} = inr db2 →
  db2 = {| images :=
             (rows ++ [{| id := id row; display_name := display_name row;
                          internal_filename := internal; full_text := text;
                          ocr_data_json := ocr |}])%list;
           sequence := s |}
  ∧ internal ∉ map internal_filename rows.
Proof.
  intros H. unfold sql_update. simpl.
  rewrite !existsb_app. simpl. rewrite Z.eqb_refl. simpl.
  rewrite orb_true_r, orb_false_r. simpl.
  destruct (existsb _ rows) eqn:E; [done|]. intros [= <-]. split.
  - f_equal. rewrite map_app. simpl. rewrite Z.eqb_refl. f_equal.
    rewrite <-(map_id rows) at 2. apply map_ext_in. intros r Hr%list_elem_of_In.
    specialize (H r Hr). destruct (Z.eqb_spec (id r) (id row)); [lia|done].
  - intros (r & Hname & Hr)%list_elem_of_In%in_map_iff.
    apply list_elem_of_In in Hr.
    assert (Hex : existsb (λ r0, negb (id r0 =? id row)%Z
                                 && String.eqb (internal_filename r0) internal)
                          rows = true).
    { apply existsb_exists. exists r. split; [by apply list_elem_of_In|].
      specialize (H r Hr). rewrite Hname, String.eqb_refl, andb_true_r.
      destruct (Z.eqb_spec (id r) (id row)); [lia|done]. }
    congruence.
Qed.

Lemma sql_select_filename_some image_id db name :
  sql_select_filename image_id db = Some name ↔
  ∃ row, List.find (λ row, (id row =? image_id)%Z) (images db) = Some row
         ∧ internal_filename row = name.
Proof.
  unfold sql_select_filename. destruct (List.find _ _) as [row|].
  - split; [intros [= <-]; eauto|]. by intros (r & [= <-] & <-).
  - split; [done|]. by intros (r & [=] & _).
Qed.

Lemma sql_select_filename_none image_id db :
  sql_select_filename image_id db = None ↔ image_id ∉ map id (images db).
Proof.
  unfold sql_select_filename. destruct (List.find _ _) as [row|] eqn:E.
  - split; [done|]. intros Hno. destruct Hno.
    apply find_some in E as [Hin Hid%Z.eqb_eq]. subst image_id.
    apply list_elem_of_In, in_map, Hin.
  - split; [|done]. intros _ (row & <- & Hin)%list_elem_of_In%in_map_iff.
    pose proof (find_none _ _ E row Hin) as Hne. simpl in Hne.
    by rewrite Z.eqb_refl in Hne.
Qed.

Lemma elem_of_sql_delete image_id db row :
  row ∈ images (sql_delete image_id db) ↔ row ∈ images db ∧ id row ≠ image_id.
Proof.
  unfold sql_delete. simpl. rewrite !list_elem_of_In, filter_In.
  destruct (Z.eqb_spec (id row) image_id); simpl; split; intros [? ?];
    split; (done || congruence).
Qed.

End Table.

(** ** The processing of an upload *)

Section Processing.

Lemma process_cases w file display internal res events :
  process_and_save_image w file display internal = (res, events) →
  (∃ e status_code, res = inr (ProcessFailed e, status_code)
                    ∧ status_code ≠ 200 ∧ events = [])
  ∨ (∃ img ocr_results e,
       image_open w (stream file) = inr img
       ∧ readtext w img = inr ocr_results
       ∧ res = inl (OSError e)
       ∧ events = [WriteFailed (Py.os_path_join UPLOAD_FOLDER internal)])
  ∨ (∃ img ocr_results,
       image_open w (stream file) = inr img
       ∧ readtext w img = inr ocr_results
       ∧ res = inr (Processed (full_text_of ocr_results)
                              (Dumped (words_data_of w ocr_results)), 200)
       ∧ events = [Written (Py.os_path_join UPLOAD_FOLDER internal)
                           (stream file)]).
Proof.
  unfold process_and_save_image.
  destruct (image_open w (stream file)) as [e|img] eqn:Hopen.
  { intros [= <- <-]. left. eexists _, 400. by split_and!. }
  destruct (readtext w img) as [e|ocr_results] eqn:Hread.
  { intros [= <- <-]. left. eexists _, 500. by split_and!. }
  destruct (open_write w _) as [e|] eqn:Hwrite; intros [= <- <-].
  - right. left. by exists img, ocr_results, e.
  - right. right. by exists img, ocr_results.
Qed.

End Processing.

(** ** The upload route *)

Section Upload.

Lemma upload_new_cases w file db reply db' events :
  upload_new w file db = (reply, db', events) →
  (created_id reply = None ∧ db' = db
   ∧ after_ocr w file (filename file) events)
  ∨ (∃ new_id img ocr_results,
       image_open w (stream file) = inr img
       ∧ readtext w img = inr ocr_results
       ∧ reply = Json (CreatedJson "File processed successfully" new_id
                                   (filename file)) 201
       ∧ events = [Written (Py.os_path_join UPLOAD_FOLDER (filename file))
                           (stream file)]
       ∧ sql_insert w (filename file) (filename file)
                    (full_text_of ocr_results)
                    (Dumped (words_data_of w ocr_results)) db
         = inr (new_id, db')).
Proof.
  unfold upload_new. destruct (path_exists w _).
  { intros [= <- <- <-]. left. split_and!; [done..|by left]. }
  destruct (process_and_save_image w file _ _) as [res ev] eqn:Hp.
  apply process_cases in Hp
    as [(e & sc & -> & Hsc & ->)
       |[(img & rs & e & Ho & Hr & -> & ->)|(img & rs & Ho & Hr & -> & ->)]].
  - apply Nat.eqb_neq in Hsc. rewrite Hsc. simpl.
    intros [= <- <- <-]. left. split_and!; [done..|by left].
  - intros [= <- <- <-]. left. split_and!; [done..|].
    right. exists img, rs. auto.
  - simpl.
    destruct (sql_insert w _ _ _ _ db) as [e|[new_id db2]] eqn:Hi.
    + apply sql_insert_failed in Hi as [->|[-> _]]; cbv iota;
        intros [= <- <- <-]; left; (split_and!; [done..|]);
        right; exists img, rs; auto.
    + intros [= <- <- <-]. right. by exists new_id, img, rs.
Qed.

Lemma upload_copy_cases w file db reply db' events :
  upload_copy w file db = (reply, db', events) →
  (created_id reply = None ∧ db' = db ∧ events = [])
  ∨ ∃ new_id db1,
      sql_insert w (filename file) ("temp_" +:+ filename file) ""
                 (Undecodable "") db = inr (new_id, db1)
      ∧ ((created_id reply = None ∧ db' = db1
          ∧ (events = []
             ∨ ∃ internal,
                 copy_filename (filename file) new_id = Some internal
                 ∧ after_ocr w file internal events))
         ∨ (created_id reply = None ∧ db' = sql_delete new_id db1
            ∧ events = [])
         ∨ (∃ internal img ocr_results,
              copy_filename (filename file) new_id = Some internal
              ∧ image_open w (stream file) = inr img
              ∧ readtext w img = inr ocr_results
              ∧ reply = Json (CopyJson "File added as new copy" new_id) 201
              ∧ events = [Written (Py.os_path_join UPLOAD_FOLDER internal)
                                  (stream file)]
              ∧ sql_update w new_id internal (full_text_of ocr_results)
                           (Dumped (words_data_of w ocr_results)) db1
                = inr db')).
Proof.
  unfold upload_copy.
  destruct (sql_insert w _ _ _ _ db) as [e|[new_id db1]] eqn:Hi.
  { intros [= <- <- <-]. by left. }
  intros H. right. exists new_id, db1. split; [done|]. revert H.
  destruct (copy_filename _ _) as [internal|] eqn:Hc.
  2:{ intros [= <- <- <-]. left. split_and!; [done..|]. by left. }
  destruct (process_and_save_image w file _ _) as [res ev] eqn:Hp.
  apply process_cases in Hp
    as [(e & sc & -> & Hsc & ->)
       |[(img & rs & e & Ho & Hr & -> & ->)|(img & rs & Ho & Hr & -> & ->)]].
  - apply Nat.eqb_neq in Hsc. rewrite Hsc. simpl.
    intros [= <- <- <-]. right. left. done.
  - intros [= <- <- <-]. left. split_and!; [done..|].
    right. exists internal. split; [done|]. right. exists img, rs. auto.
  - simpl. destruct (sql_update w _ _ _ _ db1) as [e|db2] eqn:Hu.
    + intros [= <- <- <-]. left. split_and!; [done..|].
      right. exists internal. split; [done|]. right. exists img, rs. auto.
    + intros [= <- <- <-]. right. right. by exists internal, img, rs.
Qed.

Lemma upload_image_cases w request db reply db' events :
  upload_image w request db = (reply, db', events) →
  (created_id reply = None ∧ db' = db ∧ events = [])
  ∨ ∃ file,
      files_file request = Some file
      ∧ allowed_file (filename file) = Some true
      ∧ (upload_new w file db = (reply, db', events)
         ∨ upload_copy w file db = (reply, db', events)).
Proof.
  unfold upload_image.
  destruct (files_file request) as [file|]; [|intros [= <- <- <-]; by left].
  destruct (negb (Py.truthy (filename file))); [intros [= <- <- <-]; by left|].
  destruct (allowed_file (filename file)) as [[]|] eqn:Ha;
    [|intros [= <- <- <-]; by left..].
  intros H. right. exists file. split_and!; [done..|].
  destruct (args_action request) as [action|]; [|by left].
  destruct (decide (action = "new_copy")) as [->|Hne]; [by right|].
  left. rewrite <-H. clear H.
  repeat (destruct action as [|[[] [] [] [] [] [] [] []] action]; try done).
Qed.

End Upload.

Lemma upload_stored
    (w : World) (request : UploadRequest) (db db' : Db) (reply : Reply)
    (events : list FsEvent) (new_id : Z) :
  upload_image w request db = (reply, db', events) →
  created_id reply = Some new_id →
  ∃ file img ocr_results internal,
    files_file request = Some file
    ∧ allowed_file (filename file) = Some true
    ∧ image_open w (stream file) = inr img
    ∧ readtext w img = inr ocr_results
    ∧ (internal = filename file
       ∨ copy_filename (filename file) new_id = Some internal)
    ∧ events = [Written (Py.os_path_join UPLOAD_FOLDER internal) (stream file)]
    ∧ images db'
      = (images db
         ++ [stored_row w new_id (filename file) internal ocr_results])%list
    ∧ sequence db' = new_id
    ∧ (sequence db < new_id)%Z
    ∧ (∀ row, row ∈ images db → (id row < new_id)%Z).
Proof.
  intros Hup Hid.
  apply upload_image_cases in Hup
    as [(Hnone & _)|(file & Hfile & Hallowed & [Hup|Hup])]; [congruence| |].
  - apply upload_new_cases in Hup
      as [(Hnone & _)|(n & img & rs & Ho & Hr & -> & -> & Hi)]; [congruence|].
    injection Hid as ->.
    apply sql_insert_ok in Hi as (Himg & Hseq & Hlt & Hids & _ & Hmax).
    exists file, img, rs, (filename file). split_and!; auto.
  - apply upload_copy_cases in Hup
      as [(Hnone & _)|(n & db1 & Hi & Hcases)]; [congruence|].
    destruct Hcases
      as [(Hnone & _)|[(Hnone & _)
                      |(internal & img & rs & Hc & Ho & Hr & -> & -> & Hu)]];
      [congruence..|].
    injection Hid as ->.
    apply sql_insert_ok in Hi as (Himg & Hseq & Hlt & Hids & _ & Hmax).
    destruct db1 as [rows1 seq1]. simpl in Himg, Hseq. subst rows1 seq1.
    apply (sql_update_last w (images db)
             (reserved_row new_id (filename file))) in Hu as [-> _]; [|done].
    exists file, img, rs, internal. split_and!; auto.
Qed.

(** An id that an upload announces is an integer of SQLite. *)
Lemma upload_stored_id w request db db' reply events new_id :
  upload_image w request db = (reply, db', events) →
  created_id reply = Some new_id →
  is_sqlite_integer new_id = true.
Proof.
  intros Hup Hid.
  apply upload_image_cases in Hup
    as [(Hnone & _)|(file & Hfile & Hallowed & [Hup|Hup])]; [congruence| |].
  - apply upload_new_cases in Hup
      as [(Hnone & _)|(n & img & rs & Ho & Hr & -> & -> & Hi)]; [congruence|].
    injection Hid as ->. by apply sql_insert_ok in Hi as (_ & _ & _ & _ & _ & ?).
  - apply upload_copy_cases in Hup
      as [(Hnone & _)|(n & db1 & Hi & Hcases)]; [congruence|].
    destruct Hcases
      as [(Hnone & _)|[(Hnone & _)
                      |(internal & img & rs & Hc & Ho & Hr & -> & -> & Hu)]];
      [congruence..|].
    injection Hid as ->. by apply sql_insert_ok in Hi as (_ & _ & _ & _ & _ & ?).
Qed.

(** The path of a file of the gallery: [os.path.join] puts the name after
    the folder, and keeps the name alone when it starts with a slash. *)
Lemma os_path_join_upload name :
  Py.os_path_join UPLOAD_FOLDER name
  = if Py.startswith "/" name then name else "uploads/" +:+ name.
Proof. unfold Py.os_path_join. by destruct (Py.startswith "/" name). Qed.

(** X18.  An upload that announces a new id has stored exactly this: the image
    was decoded and read, the file was written once, at the path that
    [os.path.join] gives for the upload folder and the internal name (the
    name given, or the name of the copy), and the table has one more row,
    last, with the new id, above every id given before, the name given, the
    internal name, and the words read.  The name given passed
    [allowed_file] and nothing else: the path is the internal name after
    "uploads/", or the internal name alone when it starts with a slash, so
    that the file need not be inside the upload folder. *)
Theorem upload_stores_what_was_read
    (w : World) (request : UploadRequest) (db db' : Db) (reply : Reply)
    (events : list FsEvent) (new_id : Z) :
  upload_image w request db = (reply, db', events) →
  created_id reply = Some new_id →
  ∃ file img ocr_results internal,
    files_file request = Some file
    ∧ allowed_file (filename file) = Some true
    ∧ image_open w (stream file) = inr img
    ∧ readtext w img = inr ocr_results
    ∧ (internal = filename file
       ∨ copy_filename (filename file) new_id = Some internal)
    ∧ events = [Written (Py.os_path_join UPLOAD_FOLDER internal) (stream file)]
    ∧ Py.os_path_join UPLOAD_FOLDER internal
      = (if Py.startswith "/" internal then internal
         else "uploads/" +:+ internal)
    ∧ images db'
      = (images db
         ++ [stored_row w new_id (filename file) internal ocr_results])%list
    ∧ sequence db' = new_id
    ∧ (sequence db < new_id)%Z
    ∧ (∀ row, row ∈ images db → (id row < new_id)%Z).
Proof.
  intros Hup Hid.
  destruct (upload_stored _ _ _ _ _ _ _ Hup Hid)
    as (file & img & rs & internal & H1 & H2 & H3 & H4 & H5 & H6 & H7).
  exists file, img, rs, internal.
  do 6 (split; [done|]). split; [apply os_path_join_upload|exact H7].
Qed.

Lemma upload_stores_what_was_read_witness :
  ∃ file img ocr_results internal,
    files_file pets_upload = Some file
    ∧ allowed_file (filename file) = Some true
    ∧ image_open reads_pets (stream file) = inr img
    ∧ readtext reads_pets img = inr ocr_results
    ∧ (internal = filename file
       ∨ copy_filename (filename file) 1 = Some internal)
    ∧ (upload_image reads_pets pets_upload empty_db).2
      = [Written (Py.os_path_join UPLOAD_FOLDER internal) (stream file)]
    ∧ images (upload_image reads_pets pets_upload empty_db).1.2
      = [stored_row reads_pets 1 (filename file) internal ocr_results].
Proof.
  destruct (upload_stores_what_was_read reads_pets pets_upload empty_db
              (upload_image reads_pets pets_upload empty_db).1.2
              (upload_image reads_pets pets_upload empty_db).1.1
              (upload_image reads_pets pets_upload empty_db).2 1)
    as (file & img & rs & internal & H1 & H2 & H3 & H4 & H5 & H6 & _ & H8 & _);
    [reflexivity..|].
  exists file, img, rs, internal. split_and!; done.
Defined.

Section UploadOutcomes.

Lemma search_images_skips q before image after :
  words_in_image image = [] →
  search_images q (before ++ image :: after)
  = search_images q (before ++ after).
Proof.
  intros Hw. unfold search_images.
  destruct (negb _); [done|]. destruct (parse_terms _) as [search_type terms].
  by rewrite search_skips.
Qed.

(** What an upload that announces no id leaves: the table as it was, or the
    table with the row that reserved an id; the counter of ids may have
    moved on. *)
Lemma upload_failed w request db db' reply events :
  upload_image w request db = (reply, db', events) →
  created_id reply = None →
  (sequence db ≤ sequence db')%Z
  ∧ (images db' = images db
     ∨ ∃ file new_id,
         files_file request = Some file
         ∧ images db'
           = (images db ++ [reserved_row new_id (filename file)])%list
         ∧ sequence db' = new_id ∧ (sequence db < new_id)%Z
         ∧ (∀ row, row ∈ images db → (id row < new_id)%Z)
         ∧ "temp_" +:+ filename file ∉ map internal_filename (images db)).
Proof.
  intros Hup Hnone.
  apply upload_image_cases in Hup
    as [(_ & -> & _)|(file & Hfile & Hallowed & [Hup|Hup])].
  - split; [lia|by left].
  - apply upload_new_cases in Hup
      as [(_ & -> & _)|(n & img & rs & _ & _ & -> & _)]; [|done].
    split; [lia|by left].
  - apply upload_copy_cases in Hup
      as [(_ & -> & _)|(n & db1 & Hi & Hcases)]; [split; [lia|by left]|].
    apply sql_insert_ok in Hi as (Himg & Hseq & Hlt & Hids & Hfresh & Hmax).
    destruct Hcases
      as [(_ & -> & _)|[(_ & -> & _)|(? & ? & ? & _ & _ & _ & -> & _)]];
      [| |done].
    + split; [lia|]. right. exists file, n. by split_and!.
    + destruct db1 as [rows1 seq1]. simpl in Himg, Hseq. subst rows1 seq1.
      match goal with
      | |- context [sql_delete ?a ?b] =>
          assert (E : sql_delete a b = {| images := images db; sequence := n |})
            by apply (sql_delete_last (images db)
                        (reserved_row n (filename file)) n Hids)
      end.
      rewrite E. simpl. split; [lia|by left].
Qed.

Lemma find_last rows row :
  (∀ r, r ∈ rows → (id r < id row)%Z) →
  List.find (λ r, (id r =? id row)%Z) (rows ++ [row]) = Some row.
Proof.
  induction rows as [|r rows IH]; intros H; simpl.
  - by rewrite Z.eqb_refl.
  - destruct (Z.eqb_spec (id r) (id row)) as [E|_].
    + specialize (H r ltac:(by left)). lia.
    + apply IH. intros r' Hr'. apply H. by right.
Qed.

End UploadOutcomes.

(** X19.  After an upload that announced a new id, searching for the text of any
    region that was read, as it was read, returns the new image, under the
    name given, with the box of that region among the highlights. *)
Theorem uploaded_words_are_found
    (w : World) (request : UploadRequest) (db db' : Db) (reply : Reply)
    (events : list FsEvent) (new_id : Z) (file : FileStorage) (img : ndarray)
    (ocr_results : list (OcrResult (number w)))
    (result : OcrResult (number w)) :
  upload_image w request db = (reply, db', events) →
  created_id reply = Some new_id →
  files_file request = Some file →
  image_open w (stream file) = inr img →
  readtext w img = inr ocr_results →
  result ∈ ocr_results →
  Py.strip (Py.lower (recognised result)) ≠ "" →
  ∃ matches m,
    search_images (Some (recognised result)) (images db') = Found matches
    ∧ m ∈ matches
    ∧ m_id m = new_id
    ∧ bbox (word_of_result w result) ∈ map bbox (matched_words m).
Proof.
  intros Hup Hid Hfile Ho Hr Hres Hq.
  destruct (upload_stored _ _ _ _ _ _ _ Hup Hid)
    as (file' & img' & rs' & internal & Hfile' & _ & Ho' & Hr' & _ & _
        & Himg & _).
  assert (file' = file) as -> by congruence.
  assert (img' = img) as -> by congruence.
  assert (rs' = ocr_results) as -> by congruence.
  destruct (found_by_block (Some (recognised result)) (images db')
              (stored_row w new_id (filename file) internal ocr_results)
              (word_of_result w result))
    as (matches & m & H1 & H2 & H3 & H4).
  - rewrite Himg. apply elem_of_app. right. by left.
  - simpl. apply list_elem_of_In, in_map. by apply list_elem_of_In.
  - done.
  - simpl. rewrite lower_idem. apply contains_strip.
  - exists matches, m. by split_and!.
Qed.

Lemma uploaded_words_are_found_witness :
  ∃ matches m,
    search_images (Some "CAT")
                  (images (upload_image reads_pets pets_upload empty_db).1.2)
    = Found matches
    ∧ m ∈ matches ∧ m_id m = 1%Z.
Proof.
  destruct (uploaded_words_are_found reads_pets pets_upload empty_db
              (upload_image reads_pets pets_upload empty_db).1.2
              (upload_image reads_pets pets_upload empty_db).1.1
              (upload_image reads_pets pets_upload empty_db).2 1
              {| filename := "pets.png"; stream := "PNG..." |} [[[255%Z]]]
              [dog_region; cat_region] cat_region)
    as (matches & m & H1 & H2 & H3 & _);
    [reflexivity..| | |].
  - right. left.
  - vm_compute. discriminate.
  - exists matches, m. auto.
Defined.

(** X20.  An upload that announces no id changes no search: the rows that were
    there are there, in their order, followed at most by one row that
    reserved an id, and that row has no words. *)
Theorem failed_upload_changes_no_search
    (w : World) (request : UploadRequest) (db db' : Db) (reply : Reply)
    (events : list FsEvent) :
  upload_image w request db = (reply, db', events) →
  created_id reply = None →
  (∃ extra, images db' = (images db ++ extra)%list
            ∧ length extra ≤ 1
            ∧ ∀ row, row ∈ extra → words_in_image row = [])
  ∧ ∀ q, search_images q (images db') = search_images q (images db).
Proof.
  intros Hup Hnone.
  destruct (upload_failed _ _ _ _ _ _ Hup Hnone)
    as [_ [E|(file & n & _ & E & _)]]; rewrite E.
  - split; [|done]. exists []. rewrite app_nil_r.
    split_and!; [done|simpl; lia|]. by intros row ?%elem_of_nil.
  - split.
    + eexists. split_and!; [done|simpl; lia|].
      by intros row ->%list_elem_of_singleton.
    + intros q. rewrite search_images_skips by done. by rewrite app_nil_r.
Qed.

Lemma failed_upload_changes_no_search_witness :
  search_images (Some "cat")
                (images (upload_image ocr_down pets_copy empty_db).1.2)
  = search_images (Some "cat") (images empty_db).
Proof.
  apply (failed_upload_changes_no_search ocr_down pets_copy empty_db
           (upload_image ocr_down pets_copy empty_db).1.2
           (upload_image ocr_down pets_copy empty_db).1.1
           (upload_image ocr_down pets_copy empty_db).2); reflexivity.
Defined.

(** X21.  An upload touches the folder at most once, and only to write the bytes
    it was sent, after the name passed [allowed_file] and the image was
    decoded and read: nothing is written for a refused name, an unreadable
    image or a failed reading.  The path written is the one that
    [os.path.join] gives for the upload folder and the name sent, or the
    name of a copy built from it: that name after "uploads/", or that name
    alone when it starts with a slash. *)
Theorem upload_writes_after_reading
    (w : World) (request : UploadRequest) (db db' : Db) (reply : Reply)
    (events : list FsEvent) :
  upload_image w request db = (reply, db', events) →
  length events ≤ 1
  ∧ ∀ event, event ∈ events →
      ∃ file img ocr_results internal,
        files_file request = Some file
        ∧ allowed_file (filename file) = Some true
        ∧ image_open w (stream file) = inr img
        ∧ readtext w img = inr ocr_results
        ∧ (internal = filename file
           ∨ ∃ new_id, copy_filename (filename file) new_id = Some internal)
        ∧ (event = Written (Py.os_path_join UPLOAD_FOLDER internal)
                           (stream file)
           ∨ event = WriteFailed (Py.os_path_join UPLOAD_FOLDER internal))
        ∧ Py.os_path_join UPLOAD_FOLDER internal
          = (if Py.startswith "/" internal then internal
             else "uploads/" +:+ internal).
Proof.
  intros Hup.
  assert (Hafter : events = [] ∨ ∃ file internal,
            files_file request = Some file
            ∧ allowed_file (filename file) = Some true
            ∧ (internal = filename file
               ∨ ∃ new_id, copy_filename (filename file) new_id = Some internal)
            ∧ after_ocr w file internal events).
  { apply upload_image_cases in Hup
      as [(_ & _ & ->)|(file & Hfile & Hallowed & [Hup|Hup])]; [by left| |].
    - right. exists file, (filename file). split_and!; [done|done|by left|].
      apply upload_new_cases in Hup
        as [(_ & _ & H)|(n & img & rs & Ho & Hr & _ & -> & _)]; [done|].
      right. exists img, rs. auto.
    - apply upload_copy_cases in Hup
        as [(_ & _ & ->)|(n & db1 & _ & Hcases)]; [by left|].
      destruct Hcases
        as [(_ & _ & [->|(internal & Hc & H)])
           |[(_ & _ & ->)|(internal & img & rs & Hc & Ho & Hr & _ & -> & _)]].
      + by left.
      + right. exists file, internal. split_and!; [done|done|eauto|done].
      + by left.
      + right. exists file, internal. split_and!; [done|done|eauto|].
        right. exists img, rs. auto. }
  destruct Hafter as [->|(file & internal & Hfile & Hallowed & Hname & Hafter)].
  { split; [simpl; lia|]. by intros event ?%elem_of_nil. }
  destruct Hafter as [->|(img & rs & Ho & Hr & [->| ->])].
  - split; [simpl; lia|]. by intros event ?%elem_of_nil.
  - split; [simpl; lia|]. intros event ->%list_elem_of_singleton.
    exists file, img, rs, internal.
    split_and!; auto using os_path_join_upload.
  - split; [simpl; lia|]. intros event ->%list_elem_of_singleton.
    exists file, img, rs, internal.
    split_and!; auto using os_path_join_upload.
Qed.

Lemma upload_writes_after_reading_witness :
  (upload_image reads_pets pets_upload empty_db).2
  = [Written "uploads/pets.png" "PNG..."]
  ∧ ∃ file img ocr_results internal,
      files_file pets_upload = Some file
      ∧ allowed_file (filename file) = Some true
      ∧ image_open reads_pets (stream file) = inr img
      ∧ readtext reads_pets img = inr ocr_results
      ∧ (Written "uploads/pets.png" "PNG..."
         = Written (Py.os_path_join UPLOAD_FOLDER internal) (stream file)
         ∨ Written "uploads/pets.png" "PNG..."
           = WriteFailed (Py.os_path_join UPLOAD_FOLDER internal)).
Proof.
  split; [reflexivity|].
  destruct (upload_writes_after_reading reads_pets pets_upload empty_db
              (upload_image reads_pets pets_upload empty_db).1.2
              (upload_image reads_pets pets_upload empty_db).1.1
              (upload_image reads_pets pets_upload empty_db).2 eq_refl)
    as [_ Hevents].
  destruct (Hevents (Written "uploads/pets.png" "PNG..."))
    as (file & img & rs & internal & H1 & H2 & H3 & H4 & _ & H6 & _).
  - left.
  - exists file, img, rs, internal. split_and!; done.
Defined.

(** ** The delete route *)

Section Delete.

(** An id that SQLite does not take: the [SELECT] raises, outside the
    [try]. *)
Lemma delete_image_overflow w image_id db :
  is_sqlite_integer image_id = false →
  delete_image w image_id db
  = (Unhandled
       (OverflowError "Python int too large to convert to SQLite INTEGER"),
     db, []).
Proof. intros H. unfold delete_image. by rewrite H. Qed.

(** An id that SQLite takes. *)
Lemma delete_image_cases w image_id db reply db' events :
  is_sqlite_integer image_id = true →
  delete_image w image_id db = (reply, db', events) →
  ((image_id ∉ map id (images db))
   ∧ reply = Json (ErrorJson "Image not found in database") 404
   ∧ db' = db ∧ events = [])
  ∨ (∃ row,
       List.find (λ row, (id row =? image_id)%Z) (images db) = Some row
       ∧ db' = sql_delete image_id db
       ∧ (status_of reply = Some 200 ∨ status_of reply = Some 500)
       ∧ created_id reply = None
       ∧ (events = []
          ∨ events = [Removed (Py.os_path_join UPLOAD_FOLDER
                                               (internal_filename row))]
          ∨ events = [RemoveFailed (Py.os_path_join UPLOAD_FOLDER
                                                    (internal_filename row))])
       ∧ (events ≠ [] →
          path_exists w (Py.os_path_join UPLOAD_FOLDER (internal_filename row))
          = true)).
Proof.
  intros Hint. unfold delete_image. rewrite Hint. cbn [negb].
  destruct (sql_select_filename image_id db) as [name|] eqn:Hs.
  - apply sql_select_filename_some in Hs as (row & Hfind & <-).
    intros H. right. exists row. split; [done|]. revert H.
    destruct (path_exists w _) eqn:He; [destruct (os_remove w _)|];
      intros [= <- <- <-]; split_and!; auto.
  - apply sql_select_filename_none in Hs. intros [= <- <- <-]. by left.
Qed.

Lemma delete_image_table w image_id db reply db' events :
  delete_image w image_id db = (reply, db', events) →
  created_id reply = None ∧ (db' = db ∨ db' = sql_delete image_id db).
Proof.
  intros Hdel. destruct (is_sqlite_integer image_id) eqn:Hint.
  - apply delete_image_cases in Hdel
      as [(_ & -> & -> & _)|(row & _ & -> & _ & Hnone & _)]; auto.
  - rewrite delete_image_overflow in Hdel by done.
    injection Hdel as <- <- <-. auto.
Qed.

Lemma found_row_has_id image_id rows row :
  List.find (λ row, (id row =? image_id)%Z) rows = Some row →
  row ∈ rows ∧ id row = image_id.
Proof.
  intros [Hin Hid%Z.eqb_eq]%find_some. by rewrite list_elem_of_In.
Qed.

Lemma search_images_ids q rows matches m :
  search_images q rows = Found matches → m ∈ matches →
  ∃ image, image ∈ rows ∧ m_id m = id image.
Proof.
  unfold search_images. destruct (negb _); [done|].
  destruct (parse_terms _) as [search_type terms]. intros [= <-] Hm.
  apply elem_of_search in Hm as (image & Hin & ->). by exists image.
Qed.

End Delete.

(** X22.  A delete request for an id that SQLite takes as an integer (64 bits,
    signed) and that is in the table removes the row with that id, and no
    other, even when it answers 500 because the file could not be removed;
    for such an id that is not in the table it answers 404 and changes
    nothing.  After it, a second delete of the id answers 404 and no search
    returns the id.  For an id outside the integers of SQLite the request
    has no answer of the route: the [SELECT] raises [OverflowError] outside
    the [try], and nothing is changed, at the first request as at the
    next.  The counter of ids is left alone throughout. *)
Theorem delete_removes_the_row
    (w : World) (image_id : Z) (db db' : Db) (reply : Reply)
    (events : list FsEvent) :
  delete_image w image_id db = (reply, db', events) →
  sequence db' = sequence db
  ∧ (is_sqlite_integer image_id = true →
     (∀ row, row ∈ images db' ↔ row ∈ images db ∧ id row ≠ image_id)
     ∧ (status_of reply = Some 404 ↔ image_id ∉ map id (images db))
     ∧ (status_of reply = Some 404 → db' = db ∧ events = [])
     ∧ (∀ w', status_of (delete_image w' image_id db').1.1 = Some 404)
     ∧ (∀ q matches m,
          search_images q (images db') = Found matches → m ∈ matches →
          m_id m ≠ image_id))
  ∧ (is_sqlite_integer image_id = false →
     reply = Unhandled
               (OverflowError
                  "Python int too large to convert to SQLite INTEGER")
     ∧ status_of reply = None
     ∧ db' = db ∧ events = []
     ∧ ∀ w', delete_image w' image_id db' = (reply, db', events)).
Proof.
  intros Hdel.
  destruct (is_sqlite_integer image_id) eqn:Hint.
  2:{ rewrite delete_image_overflow in Hdel by done.
      injection Hdel as <- <- <-.
      split_and!; [done|done|]. intros _. split_and!; [done..|].
      intros w'. by apply delete_image_overflow. }
  pose proof (delete_image_cases _ _ _ _ _ _ Hint Hdel) as Hcases.
  assert (Hrows : ∀ row, row ∈ images db' ↔ row ∈ images db ∧ id row ≠ image_id).
  { destruct Hcases as [(Hno & _ & -> & _)|(row & _ & -> & _)].
    - intros row. split; [|by intros [? _]]. intros Hrow. split; [done|].
      intros <-. apply Hno, list_elem_of_In, in_map. by apply list_elem_of_In.
    - apply elem_of_sql_delete. }
  assert (Hgone : image_id ∉ map id (images db')).
  { intros (row & <- & Hrow)%list_elem_of_In%in_map_iff.
    apply list_elem_of_In, Hrows in Hrow as [_ Hne]. done. }
  split_and!; [|intros _; split_and!|done].
  - destruct Hcases as [(_ & _ & -> & _)|(row & _ & -> & _)]; done.
  - done.
  - destruct Hcases as [(Hno & -> & _)|(row & Hfind & _ & Hst & _)]; [done|].
    apply found_row_has_id in Hfind as [Hin <-].
    split.
    + intros H404. destruct Hst as [Hst|Hst]; rewrite Hst in H404; done.
    + intros Hno. destruct Hno.
      apply list_elem_of_In, in_map. by apply list_elem_of_In.
  - destruct Hcases as [(_ & _ & -> & ->)|(row & _ & _ & Hst & _)]; [done|].
    intros H404. destruct Hst as [Hst|Hst]; rewrite Hst in H404; done.
  - intros w'.
    destruct (delete_image w' image_id db') as [[reply2 db2] events2] eqn:Hd2.
    apply delete_image_cases in Hd2
      as [(_ & -> & _)|(row & Hfind & _)]; [done| |done].
    apply found_row_has_id in Hfind as [Hin <-]. destruct Hgone.
    apply list_elem_of_In, in_map. by apply list_elem_of_In.
  - intros q matches m Hs Hm.
    destruct (search_images_ids _ _ _ _ Hs Hm) as (image & Hin & ->).
    by apply Hrows in Hin as [_ Hne].
Qed.

Lemma delete_removes_the_row_witness :
  (stamp ∈ images (delete_image reads_pets 2
                     {| images := [pets; stamp]; sequence := 2 |}).1.2
   ↔ stamp ∈ [pets; stamp] ∧ id stamp ≠ 2%Z)
  ∧ (delete_image reads_pets 9223372036854775808
       {| images := [pets; stamp]; sequence := 2 |}).1.1
    = Unhandled
        (OverflowError "Python int too large to convert to SQLite INTEGER").
Proof.
  split.
  - apply (delete_removes_the_row reads_pets 2
             {| images := [pets; stamp]; sequence := 2 |}
             (delete_image reads_pets 2
                {| images := [pets; stamp]; sequence := 2 |}).1.2
             (delete_image reads_pets 2
                {| images := [pets; stamp]; sequence := 2 |}).1.1
             (delete_image reads_pets 2
                {| images := [pets; stamp]; sequence := 2 |}).2);
      reflexivity.
  - apply (delete_removes_the_row reads_pets 9223372036854775808
             {| images := [pets; stamp]; sequence := 2 |}
             (delete_image reads_pets 9223372036854775808
                {| images := [pets; stamp]; sequence := 2 |}).1.2
             (delete_image reads_pets 9223372036854775808
                {| images := [pets; stamp]; sequence := 2 |}).1.1
             (delete_image reads_pets 9223372036854775808
                {| images := [pets; stamp]; sequence := 2 |}).2);
      reflexivity.
Defined.

(** X23.  A delete request touches the folder at most once, and only for the file
    of the row it removes: the path is the one that [os.path.join] gives
    for the upload folder and the internal name stored in the first row
    with the id, that is the stored name after "uploads/", or the stored
    name alone when it starts with a slash, and it is a path that exists.
    A request for an id outside the integers of SQLite touches nothing. *)
Theorem delete_touches_only_its_file
    (w : World) (image_id : Z) (db db' : Db) (reply : Reply)
    (events : list FsEvent) :
  delete_image w image_id db = (reply, db', events) →
  length events ≤ 1
  ∧ (is_sqlite_integer image_id = false → events = [])
  ∧ ∀ event, event ∈ events →
      ∃ row path,
        List.find (λ row, (id row =? image_id)%Z) (images db) = Some row
        ∧ row ∈ images db ∧ id row = image_id
        ∧ path = Py.os_path_join UPLOAD_FOLDER (internal_filename row)
        ∧ path = (if Py.startswith "/" (internal_filename row)
                  then internal_filename row
                  else "uploads/" +:+ internal_filename row)
        ∧ path_exists w path = true
        ∧ (event = Removed path ∨ event = RemoveFailed path).
Proof.
  intros Hdel.
  destruct (is_sqlite_integer image_id) eqn:Hint.
  2:{ rewrite delete_image_overflow in Hdel by done.
      injection Hdel as <- <- <-.
      split_and!; [simpl; lia|done|]. by intros event ?%elem_of_nil. }
  apply delete_image_cases in Hdel
    as [(_ & _ & _ & ->)|(row & Hfind & _ & _ & _ & Hev & Hex)]; [| |done].
  { split_and!; [simpl; lia|done|]. by intros event ?%elem_of_nil. }
  destruct (found_row_has_id _ _ _ Hfind) as [Hin Hid].
  destruct Hev as [->|[->| ->]]; (split_and!; [simpl; lia|done|]).
  - by intros event ?%elem_of_nil.
  - intros event ->%list_elem_of_singleton.
    exists row, (Py.os_path_join UPLOAD_FOLDER (internal_filename row)).
    split_and!; [done..|apply os_path_join_upload|by apply Hex|by left].
  - intros event ->%list_elem_of_singleton.
    exists row, (Py.os_path_join UPLOAD_FOLDER (internal_filename row)).
    split_and!; [done..|apply os_path_join_upload|by apply Hex|by right].
Qed.

Lemma delete_touches_only_its_file_witness :
  (delete_image files_there 2 {| images := [pets; stamp]; sequence := 2 |}).2
  = [Removed "uploads/stamp.png"]
  ∧ ∃ row path,
      row ∈ [pets; stamp] ∧ id row = 2%Z
      ∧ path = Py.os_path_join UPLOAD_FOLDER (internal_filename row)
      ∧ path_exists files_there path = true
      ∧ (Removed "uploads/stamp.png" = Removed path
         ∨ Removed "uploads/stamp.png" = RemoveFailed path).
Proof.
  split; [reflexivity|].
  destruct (delete_touches_only_its_file files_there 2
              {| images := [pets; stamp]; sequence := 2 |}
              (delete_image files_there 2
                 {| images := [pets; stamp]; sequence := 2 |}).1.2
              (delete_image files_there 2
                 {| images := [pets; stamp]; sequence := 2 |}).1.1
              (delete_image files_there 2
                 {| images := [pets; stamp]; sequence := 2 |}).2 eq_refl)
    as (_ & _ & Hevents).
  destruct (Hevents (Removed "uploads/stamp.png"))
    as (row & path & _ & H1 & H2 & H3 & _ & H5 & H6).
  - left.
  - exists row, path. split_and!; done.
Defined.

(** X24.  Deleting the id that an upload announced gives back the rows that were
    there before the upload, whatever becomes of the file. *)
Theorem delete_undoes_upload
    (w w' : World) (request : UploadRequest) (db db' db'' : Db)
    (reply reply' : Reply) (events events' : list FsEvent) (new_id : Z) :
  upload_image w request db = (reply, db', events) →
  created_id reply = Some new_id →
  delete_image w' new_id db' = (reply', db'', events') →
  images db'' = images db ∧ status_of reply' ≠ Some 404.
Proof.
  intros Hup Hid Hdel.
  destruct (upload_stored _ _ _ _ _ _ _ Hup Hid)
    as (file & img & rs & internal & _ & _ & _ & _ & _ & _ & Himg & _ & _ & Hids).
  pose proof (find_last (images db)
                (stored_row w new_id (filename file) internal rs) Hids) as Hfind.
  rewrite <-Himg in Hfind.
  change (id (stored_row _ _ _ _ _)) with new_id in Hfind.
  apply delete_image_cases in Hdel
    as [(Hno & _)|(row & _ & -> & Hst & _)];
    [| |by apply (upload_stored_id _ _ _ _ _ _ _ Hup Hid)].
  - destruct Hno. apply found_row_has_id in Hfind as [Hin Hrow].
    rewrite <-Hrow. apply list_elem_of_In, in_map. by apply list_elem_of_In.
  - split; [|by destruct Hst as [-> | ->]].
    unfold sql_delete. simpl. rewrite Himg, List.filter_app. simpl.
    rewrite Z.eqb_refl. simpl. rewrite app_nil_r. apply filter_other_ids.
    intros r Hr%Hids. lia.
Qed.

Lemma delete_undoes_upload_witness :
  images (delete_image reads_pets 1
            (upload_image reads_pets pets_upload empty_db).1.2).1.2
  = images empty_db.
Proof.
  apply (delete_undoes_upload reads_pets reads_pets pets_upload empty_db
           (upload_image reads_pets pets_upload empty_db).1.2
           (delete_image reads_pets 1
              (upload_image reads_pets pets_upload empty_db).1.2).1.2
           (upload_image reads_pets pets_upload empty_db).1.1
           (delete_image reads_pets 1
              (upload_image reads_pets pets_upload empty_db).1.2).1.1
           (upload_image reads_pets pets_upload empty_db).2
           (delete_image reads_pets 1
              (upload_image reads_pets pets_upload empty_db).1.2).2 1);
    reflexivity.
Defined.

(** ** Successions of requests *)

Section Calls.

Lemma run_call_sequence call db reply db' :
  run_call call db = (reply, db') →
  (sequence db ≤ sequence db')%Z
  ∧ ∀ new_id, created_id reply = Some new_id →
              (sequence db < new_id ≤ sequence db')%Z.
Proof.
  destruct call as [w request|w image_id]; simpl.
  - destruct (upload_image w request db) as [[r d] ev] eqn:Hup.
    simpl. intros [= -> ->].
    destruct (created_id reply) as [n|] eqn:Hid.
    + destruct (upload_stored _ _ _ _ _ _ _ Hup Hid)
        as (_ & _ & _ & _ & _ & _ & _ & _ & _ & _ & _ & Hseq & Hlt & _).
      split; [lia|]. intros ? [= <-]. lia.
    + destruct (upload_failed _ _ _ _ _ _ Hup Hid) as [Hle _]. by split.
  - destruct (delete_image w image_id db) as [[r d] ev] eqn:Hdel.
    simpl. intros [= -> ->].
    apply delete_image_table in Hdel as [Hnone [-> | ->]].
    + split; [lia|]. intros n Hn. congruence.
    + split; [simpl; lia|]. intros n Hn. congruence.
Qed.

Lemma StronglySorted_snoc {A} (R : A → A → Prop) l x :
  StronglySorted R l → Forall (λ y, R y x) l → StronglySorted R (l ++ [x]).
Proof.
  induction 1 as [|y l Hl IH Hy]; intros Hx; simpl.
  - repeat constructor.
  - apply Forall_cons in Hx as [Hyx Hx]. constructor; [by apply IH|].
    apply Forall_app. split; [done|]. by constructor.
Qed.

Lemma StronglySorted_ids_filter (P : Row → bool) rows :
  StronglySorted Z.lt (map id rows) →
  StronglySorted Z.lt (map id (List.filter P rows)).
Proof.
  induction rows as [|r rows IH]; simpl; [done|].
  intros [Hs Hr]%StronglySorted_inv. destruct (P r); simpl; [|by apply IH].
  constructor; [by apply IH|].
  apply Forall_forall. intros n (x & <- & Hx)%list_elem_of_In%in_map_iff.
  apply filter_In in Hx as [Hx _].
  rewrite Forall_forall in Hr. apply Hr, list_elem_of_In, in_map, Hx.
Qed.

Lemma well_formed_append db row s :
  well_formed db →
  (∀ r, r ∈ images db → (id r < id row)%Z) →
  internal_filename row ∉ map internal_filename (images db) →
  (id row ≤ s)%Z →
  well_formed {| images := (images db ++ [row])%list; sequence := s |}.
Proof.
  intros (Hsorted & Hbound & Hnames) Hids Hfresh Hs. split_and!; simpl.
  - rewrite map_app. apply StronglySorted_snoc; [done|].
    apply Forall_forall. intros n (r & <- & Hr)%list_elem_of_In%in_map_iff.
    by apply Hids, list_elem_of_In.
  - intros r [Hr| ->%list_elem_of_singleton]%elem_of_app; [|done].
    specialize (Hids r Hr). lia.
  - rewrite map_app. apply NoDup_app. split_and!; [done| |apply NoDup_singleton].
    by intros name Hname ->%list_elem_of_singleton.
Qed.

Lemma well_formed_delete image_id db :
  well_formed db → well_formed (sql_delete image_id db).
Proof.
  intros (Hsorted & Hbound & Hnames). split_and!; simpl.
  - by apply StronglySorted_ids_filter.
  - intros r Hr. apply Hbound.
    apply list_elem_of_In, filter_In in Hr as [Hr _]. by apply list_elem_of_In.
  - eapply sublist_NoDup; [exact Hnames|].
    rewrite <-(map_id (images db)) at 2. rewrite map_map.
    apply (sublist_map_filter_all internal_filename).
Qed.

Lemma well_formed_sequence db s :
  well_formed db → (sequence db ≤ s)%Z →
  well_formed {| images := images db; sequence := s |}.
Proof.
  intros (Hsorted & Hbound & Hnames) Hs. split_and!; simpl; [done| |done].
  intros r Hr%Hbound. lia.
Qed.

Lemma upload_stored_fresh w request db db' reply events new_id :
  upload_image w request db = (reply, db', events) →
  created_id reply = Some new_id →
  ∃ row, images db' = (images db ++ [row])%list
         ∧ id row = new_id
         ∧ internal_filename row ∉ map internal_filename (images db).
Proof.
  intros Hup Hid.
  apply upload_image_cases in Hup
    as [(Hnone & _)|(file & Hfile & Hallowed & [Hup|Hup])]; [congruence| |].
  - apply upload_new_cases in Hup
      as [(Hnone & _)|(n & img & rs & Ho & Hr & -> & -> & Hi)]; [congruence|].
    injection Hid as ->.
    apply sql_insert_ok in Hi as (Himg & _ & _ & _ & Hfresh & _).
    eexists. by split_and!.
  - apply upload_copy_cases in Hup
      as [(Hnone & _)|(n & db1 & Hi & Hcases)]; [congruence|].
    destruct Hcases
      as [(Hnone & _)|[(Hnone & _)
                      |(internal & img & rs & Hc & Ho & Hr & -> & -> & Hu)]];
      [congruence..|].
    injection Hid as ->.
    apply sql_insert_ok in Hi as (Himg & Hseq & Hlt & Hids & _ & Hmax).
    destruct db1 as [rows1 seq1]. simpl in Himg, Hseq. subst rows1 seq1.
    apply (sql_update_last w (images db)
             (reserved_row new_id (filename file))) in Hu as [-> Hfresh];
      [|done].
    eexists. by split_and!.
Qed.

Lemma run_call_well_formed call db reply db' :
  well_formed db → run_call call db = (reply, db') → well_formed db'.
Proof.
  intros Hwf. destruct call as [w request|w image_id]; simpl.
  - destruct (upload_image w request db) as [[r d] ev] eqn:Hup.
    simpl. intros [= -> ->].
    destruct (created_id reply) as [n|] eqn:Hid.
    + destruct (upload_stored _ _ _ _ _ _ _ Hup Hid)
        as (_ & _ & _ & _ & _ & _ & _ & _ & _ & _ & _ & Hseq & _ & Hids).
      destruct (upload_stored_fresh _ _ _ _ _ _ _ Hup Hid)
        as (row & Himg & Hrow & Hfresh).
      destruct db' as [rows' seq']. simpl in *. subst rows' seq'.
      apply well_formed_append; [done| |done|lia].
      intros r Hr. rewrite Hrow. by apply Hids.
    + destruct (upload_failed _ _ _ _ _ _ Hup Hid)
        as [Hle [E|(file & n & _ & E & Hseq & _ & Hids & Hfresh)]].
      * destruct db' as [rows' seq']. simpl in *. subst rows'.
        by apply well_formed_sequence.
      * destruct db' as [rows' seq']. simpl in *. subst rows' seq'.
        apply well_formed_append; [done..|simpl; lia].
  - destruct (delete_image w image_id db) as [[r d] ev] eqn:Hdel.
    simpl. intros [= -> ->].
    apply delete_image_table in Hdel as [_ [-> | ->]]; [done|].
    by apply well_formed_delete.
Qed.

End Calls.

(** X25.  Over any succession of uploads and deletes, the ids announced by the
    uploads increase strictly, and each is above the largest id given
    before the succession: an id is never given twice, not even the id of
    a row deleted since. *)
Theorem ids_are_never_given_twice
    (calls : list Call) (db db' : Db) (replies : list Reply) :
  run_calls calls db = (replies, db') →
  StronglySorted Z.lt (omap created_id replies)
  ∧ Forall (λ new_id, (sequence db < new_id ≤ sequence db')%Z)
           (omap created_id replies)
  ∧ (sequence db ≤ sequence db')%Z.
Proof.
  revert db db' replies. induction calls as [|call calls IH];
    intros db db' replies; simpl.
  { intros [= <- <-]. split_and!; [constructor|constructor|lia]. }
  destruct (run_call call db) as [reply db1] eqn:Hcall.
  destruct (run_calls calls db1) as [replies1 db2] eqn:Hrest.
  intros [= <- <-].
  destruct (run_call_sequence _ _ _ _ Hcall) as [Hle Hnew].
  destruct (IH _ _ _ Hrest) as (Hsorted & Hall & Hle').
  assert (Hall' : Forall (λ n, (sequence db < n ≤ sequence db2)%Z)
                         (omap created_id replies1)).
  { eapply Forall_impl; [exact Hall|]. simpl. intros n ?. lia. }
  simpl. destruct (created_id reply) as [n|] eqn:Hid; [|split_and!; [done..|lia]].
  destruct (Hnew n eq_refl) as [Hlt Hn]. split_and!; [| |lia].
  - constructor; [done|]. eapply Forall_impl; [exact Hall|].
    simpl. intros m ?. lia.
  - constructor; [lia|done].
Qed.

Lemma ids_are_never_given_twice_witness :
  StronglySorted Z.lt
    (omap created_id
       (run_calls [CallUpload reads_pets pets_upload;
                   CallDelete reads_pets 1;
                   CallUpload ocr_down pets_copy;
                   CallUpload reads_pets pets_upload] empty_db).1).
Proof.
  apply (ids_are_never_given_twice
           [CallUpload reads_pets pets_upload;
            CallDelete reads_pets 1;
            CallUpload ocr_down pets_copy;
            CallUpload reads_pets pets_upload] empty_db
           (run_calls [CallUpload reads_pets pets_upload;
                       CallDelete reads_pets 1;
                       CallUpload ocr_down pets_copy;
                       CallUpload reads_pets pets_upload] empty_db).2).
  reflexivity.
Defined.

(** X26.  Uploads and deletes keep the table in order: after any succession of
    them on a well-formed table, the ids increase along the rows and are
    not above the largest id given, and no two rows share an internal
    name. *)
Theorem table_stays_well_formed
    (calls : list Call) (db db' : Db) (replies : list Reply) :
  well_formed db → run_calls calls db = (replies, db') → well_formed db'.
Proof.
  revert db db' replies. induction calls as [|call calls IH];
    intros db db' replies Hwf; simpl.
  { by intros [= _ <-]. }
  destruct (run_call call db) as [reply db1] eqn:Hcall.
  destruct (run_calls calls db1) as [replies1 db2] eqn:Hrest.
  intros [= _ <-]. eapply IH; [|exact Hrest].
  by eapply run_call_well_formed.
Qed.

Lemma table_stays_well_formed_witness :
  well_formed (run_calls [CallUpload reads_pets pets_upload;
                          CallUpload reads_pets pets_copy;
                          CallDelete reads_pets 1] empty_db).2.
Proof.
  apply (table_stays_well_formed
           [CallUpload reads_pets pets_upload;
            CallUpload reads_pets pets_copy;
            CallDelete reads_pets 1] empty_db _
           (run_calls [CallUpload reads_pets pets_upload;
                       CallUpload reads_pets pets_copy;
                       CallDelete reads_pets 1] empty_db).1).
  - split_and!; simpl; [constructor| |constructor].
    by intros row ?%elem_of_nil.
  - reflexivity.
Defined.

(** ** The gallery *)

Section Gallery.

Lemma insert_by_id_desc_perm row rows :
  insert_by_id_desc row rows ≡ₚ row :: rows.
Proof.
  induction rows as [|r rows IH]; simpl; [done|].
  destruct (id r <=? id row)%Z; [done|].
  rewrite IH. apply perm_swap.
Qed.

Lemma order_by_id_desc_perm rows : order_by_id_desc rows ≡ₚ rows.
Proof.
  induction rows as [|r rows IH]; simpl; [done|].
  by rewrite insert_by_id_desc_perm, IH.
Qed.

Lemma insert_by_id_desc_sorted row rows :
  StronglySorted (λ a b, (id b ≤ id a)%Z) rows →
  StronglySorted (λ a b, (id b ≤ id a)%Z) (insert_by_id_desc row rows).
Proof.
  induction rows as [|r rows IH]; simpl; intros Hs.
  - repeat constructor.
  - apply StronglySorted_inv in Hs as [Hs Hr].
    destruct (Z.leb_spec (id r) (id row)).
    + constructor; [by constructor|]. constructor; [done|].
      eapply Forall_impl; [exact Hr|]. simpl. intros x ?. lia.
    + constructor; [by apply IH|].
      rewrite insert_by_id_desc_perm. constructor; [lia|done].
Qed.

Lemma order_by_id_desc_sorted rows :
  StronglySorted (λ a b, (id b ≤ id a)%Z) (order_by_id_desc rows).
Proof.
  induction rows as [|r rows IH]; simpl; [constructor|].
  by apply insert_by_id_desc_sorted.
Qed.

Lemma insert_by_id_desc_last row rows :
  (∀ r, r ∈ rows → (id row < id r)%Z) →
  insert_by_id_desc row rows = (rows ++ [row])%list.
Proof.
  induction rows as [|r rows IH]; intros H; simpl; [done|].
  destruct (Z.leb_spec (id r) (id row)) as [Hle|_].
  - specialize (H r ltac:(by left)). lia.
  - rewrite IH; [done|]. intros x Hx. apply H. by right.
Qed.

Lemma order_by_id_desc_rev rows :
  StronglySorted Z.lt (map id rows) → order_by_id_desc rows = rev rows.
Proof.
  induction rows as [|r rows IH]; simpl; [done|].
  intros [Hs Hr]%StronglySorted_inv. rewrite IH by done.
  apply insert_by_id_desc_last. intros x Hx%list_elem_of_In%in_rev.
  rewrite Forall_forall in Hr. by apply Hr, list_elem_of_In, in_map.
Qed.

End Gallery.

(** X27.  The gallery lists every row of the table once, with its id and its two
    names, by decreasing id; on a well-formed table this is the table read
    backwards, the newest image first. *)
Theorem gallery_newest_first (db : Db) :
  get_all_images db
  ≡ₚ map (λ img, {| e_id := id img; e_display_name := display_name img;
                    e_internal_filename := internal_filename img |})
         (images db)
  ∧ StronglySorted (λ a b, (e_id b ≤ e_id a)%Z) (get_all_images db)
  ∧ (well_formed db →
     get_all_images db
     = rev (map (λ img, {| e_id := id img; e_display_name := display_name img;
                           e_internal_filename := internal_filename img |})
                (images db))).
Proof.
  unfold get_all_images. split_and!.
  - apply Permutation_map, order_by_id_desc_perm.
  - pose proof (order_by_id_desc_sorted (images db)) as Hs.
    induction Hs as [|r rows Hs IH Hr]; simpl; constructor; [done|].
    apply Forall_forall. intros e (x & <- & Hx)%list_elem_of_In%in_map_iff.
    rewrite Forall_forall in Hr. simpl. by apply Hr, list_elem_of_In.
  - intros (Hsorted & _). by rewrite order_by_id_desc_rev, map_rev.
Qed.

Lemma gallery_newest_first_witness :
  get_all_images {| images := [pets; stamp; pending]; sequence := 3 |}
  = rev (map (λ img, {| e_id := id img; e_display_name := display_name img;
                        e_internal_filename := internal_filename img |})
             [pets; stamp; pending]).
Proof.
  apply (gallery_newest_first
           {| images := [pets; stamp; pending]; sequence := 3 |}).
  split_and!; simpl.
  - repeat constructor; lia.
  - intros row Hrow.
    repeat (apply elem_of_cons in Hrow as [->|Hrow]; [simpl; lia|]).
    by apply elem_of_nil in Hrow.
  - apply (bool_decide_unpack _). vm_compute. exact I.
Defined.

(** ** The answers of the upload route *)

Section Answers.

Lemma allowed_file_answers filename : is_Some (allowed_file filename).
Proof.
  unfold allowed_file.
  destruct (rsplit1_shape "." filename)
    as [[-> _]|(head & tail & -> & -> & _)]; by eexists.
Qed.

Lemma process_status w file display internal body status_code events :
  process_and_save_image w file display internal
  = (inr (body, status_code), events) →
  status_code = 200 ∨ status_code = 400 ∨ status_code = 500.
Proof.
  unfold process_and_save_image.
  destruct (image_open w _); [intros [= <- <- <-]; auto|].
  destruct (readtext w _); [intros [= <- <- <-]; auto|].
  destruct (open_write w _); [done|]. intros [= <- <- <-]. auto.
Qed.

End Answers.

(** X28.  The upload route always answers, with one of the statuses 201, 400, 409
    and 500, and with 201 exactly when it announces a new id. *)
Theorem upload_always_answers
    (w : World) (request : UploadRequest) (db db' : Db) (reply : Reply)
    (events : list FsEvent) :
  upload_image w request db = (reply, db', events) →
  ∃ body status,
    reply = Json body status
    ∧ (status = 201 ∨ status = 400 ∨ status = 409 ∨ status = 500)
    ∧ (status = 201 ↔ is_Some (created_id reply)).
Proof.
  unfold upload_image.
  destruct (files_file request) as [file|];
    [|intros [= <- <- <-]; eexists _, _; split_and!; [done|auto|];
      split; [done|by intros [? ?]]].
  destruct (negb (Py.truthy (filename file)));
    [intros [= <- <- <-]; eexists _, _; split_and!; [done|auto|];
     split; [done|by intros [? ?]]|].
  destruct (allowed_file_answers (filename file)) as [[] ->];
    [|intros [= <- <- <-]; eexists _, _; split_and!; [done|auto|];
      split; [done|by intros [? ?]]].
  assert (Hnew : upload_new w file db = (reply, db', events) →
            ∃ body status,
              reply = Json body status
              ∧ (status = 201 ∨ status = 400 ∨ status = 409 ∨ status = 500)
              ∧ (status = 201 ↔ is_Some (created_id reply))).
  { unfold upload_new. destruct (path_exists w _).
    { intros [= <- <- <-]. eexists _, _. split_and!; [done|auto|].
      split; [done|by intros [? ?]]. }
    destruct (process_and_save_image w file _ _) as [[e|[body sc]] ev] eqn:Hp.
    { intros [= <- <- <-]. eexists _, _. split_and!; [done|auto|].
      split; [done|by intros [? ?]]. }
    destruct (process_status _ _ _ _ _ _ _ Hp) as [->|[->| ->]]; simpl.
    - destruct body.
      + intros [= <- <- <-]. eexists _, _. split_and!; [done|auto|].
        split; [done|by intros [? ?]].
      + destruct (sql_insert w _ _ _ _ db) as [[]|[n d]];
          intros [= <- <- <-]; eexists _, _; (split_and!; [done|auto|]);
          split; (done || by intros [? ?] || by eexists).
    - intros [= <- <- <-]. eexists _, _. split_and!; [done|auto|].
      destruct body; split; (done || by intros [? ?]).
    - intros [= <- <- <-]. eexists _, _. split_and!; [done|auto|].
      destruct body; split; (done || by intros [? ?]). }
  assert (Hcopy : upload_copy w file db = (reply, db', events) →
            ∃ body status,
              reply = Json body status
              ∧ (status = 201 ∨ status = 400 ∨ status = 409 ∨ status = 500)
              ∧ (status = 201 ↔ is_Some (created_id reply))).
  { unfold upload_copy.
    destruct (sql_insert w _ _ _ _ db) as [e|[n db1]].
    { intros [= <- <- <-]. eexists _, _. split_and!; [done|auto|].
      split; [done|by intros [? ?]]. }
    destruct (copy_filename _ _) as [internal|].
    2:{ intros [= <- <- <-]. eexists _, _. split_and!; [done|auto|].
        split; [done|by intros [? ?]]. }
    destruct (process_and_save_image w file _ _) as [[e|[body sc]] ev] eqn:Hp.
    { intros [= <- <- <-]. eexists _, _. split_and!; [done|auto|].
      split; [done|by intros [? ?]]. }
    destruct (process_status _ _ _ _ _ _ _ Hp) as [->|[->| ->]]; simpl.
    - destruct body.
      + intros [= <- <- <-]. eexists _, _. split_and!; [done|auto|].
        split; [done|by intros [? ?]].
      + destruct (sql_update w _ _ _ _ db1) as [e|d];
          intros [= <- <- <-]; eexists _, _; (split_and!; [done|auto|]);
          split; (done || by intros [? ?] || by eexists).
    - intros [= <- <- <-]. eexists _, _. split_and!; [done|auto|].
      destruct body; split; (done || by intros [? ?]).
    - intros [= <- <- <-]. eexists _, _. split_and!; [done|auto|].
      destruct body; split; (done || by intros [? ?]). }
  destruct (args_action request) as [action|]; [|done].
  destruct (decide (action = "new_copy")) as [->|Hne]; [done|].
  intros H. apply Hnew. rewrite <-H. clear -Hne.
  repeat (destruct action as [|[[] [] [] [] [] [] [] []] action]; try done).
Qed.

Lemma upload_always_answers_witness :
  ∃ body status,
    (upload_image ocr_down pets_copy empty_db).1.1 = Json body status
    ∧ (status = 201 ∨ status = 400 ∨ status = 409 ∨ status = 500).
Proof.
  destruct (upload_always_answers ocr_down pets_copy empty_db
              (upload_image ocr_down pets_copy empty_db).1.2
              (upload_image ocr_down pets_copy empty_db).1.1
              (upload_image ocr_down pets_copy empty_db).2)
    as (body & status & H1 & H2 & _); [reflexivity|].
  by exists body, status.
Defined.
